(** * Boids flocking simulation: embedding and verification

    The program is the boids visualiser (Vector and Boid classes, the
    animation loop and the mouse handlers).  JavaScript numbers are
    modelled through an interface [Number]: the code is written once
    against it and read at three carriers,
    - [float]: the binary64 numbers the program runs on (executable);
    - [R]: exact arithmetic on finite numbers, where rounding is absent;
    - [XR]: exact arithmetic extended with the IEEE special values
      [+Infinity], [-Infinity] and [NaN], where a division by zero is
      visible; it has no rounding, underflow or overflow, so what depends
      on those is evaluated on [float]. *)

From Stdlib Require Import Reals Lra Lia List ZArith Bool String.
From Stdlib Require Import Permutation.
From Stdlib Require PrimFloat Uint63.
Import ListNotations.

Set Implicit Arguments.

(** ** JavaScript numbers *)

Class Number (T : Type) : Type := {
  num_lit : Z -> T;          (* an integer literal *)
  num_add : T -> T -> T;     (* a + b *)
  num_sub : T -> T -> T;     (* a - b *)
  num_mul : T -> T -> T;     (* a * b *)
  num_div : T -> T -> T;     (* a / b *)
  num_neg : T -> T;          (* -a *)
  num_sqrt : T -> T;         (* Math.sqrt(a) *)
  num_lt : T -> T -> bool    (* a < b; a > b is b < a *)
}.

Declare Scope js_scope.
Delimit Scope js_scope with js.
Notation "a + b" := (num_add a b) : js_scope.
Notation "a - b" := (num_sub a b) : js_scope.
Notation "a * b" := (num_mul a b) : js_scope.
Notation "a / b" := (num_div a b) : js_scope.
Notation "- a" := (num_neg a) : js_scope.
Notation "a <? b" := (num_lt a b) : js_scope.
Notation "a >? b" := (num_lt b a) : js_scope.
Notation "# z" := (num_lit z) (at level 5, format "# z") : js_scope.

Section Js.
Context {T : Type} {N : Number T}.
Local Open Scope js_scope.

(** [a || 0]: a falsy number ([0], [-0] or [NaN]) is replaced by [0]. *)
Definition or_zero (a : T) : T :=
  if (a <? #0) || (a >? #0) then a else #0.

(** [Math.pow(a, 2)] *)
Definition pow2 (a : T) : T := a * a.
End Js.

(** ** Simulation constants (never reassigned in the program) *)

Section Constants.
Context {T : Type} {N : Number T}.
Local Open Scope js_scope.

Definition MAX_FORCE : T := #1 / #2.     (* 0.5 *)
Definition MAX_SPEED : T := #5.
Definition ORB_RADIUS : T := #10.
Definition ORB_STRENGTH : T := #40.
End Constants.

(** ** class Vector

  Every method mutates the receiver and returns it; no two live
  references to one vector are ever used after a mutation, so a method
  is modelled by the function from the receiver's old value to its new
  one. *)

Module Vector.
Record t (T : Type) : Type := mk { x : T; y : T }.
Arguments mk {T} _ _.

Section Methods.
Context {T : Type} {N : Number T}.
Local Open Scope js_scope.

(** constructor(x, y) *)
Definition new (a b : T) : t T := mk (or_zero a) (or_zero b).

Definition add (this other : t T) : t T :=
  mk (x this + x other) (y this + y other).

Definition sub (this other : t T) : t T :=
  mk (x this - x other) (y this - y other).

Definition mult (this : t T) (scalar : T) : t T :=
  mk (x this * scalar) (y this * scalar).

Definition div (this : t T) (scalar : T) : t T :=
  mk (x this / scalar) (y this / scalar).

Definition mag (this : t T) : T :=
  num_sqrt (x this * x this + y this * y this).

Definition normalize (this : t T) : t T :=
  let m := mag this in
  if m >? #0 then div this m else this.

Definition setMag (this : t T) (m : T) : t T :=
  mult (normalize this) m.

Definition limit (this : t T) (max : T) : t T :=
  if mag this >? max then setMag this max else this.

Definition copy (this : t T) : t T := new (x this) (y this).

Definition dist (v1 v2 : t T) : T :=
  num_sqrt (pow2 (x v1 - x v2) + pow2 (y v1 - y v2)).
End Methods.
End Vector.

Abbreviation Vector := Vector.t.

(** ** Process-wide parameters changed by the sliders *)

Record Params (T : Type) : Type := {
  PERCEPTION_RADIUS : T;
  SEPARATION_WEIGHT : T;
  ALIGNMENT_WEIGHT : T;
  COHESION_WEIGHT : T;
  wrap : bool
}.

(** The canvas extent read by [edges]. *)
Record Canvas (T : Type) : Type := { width : T; height : T }.

(** ** Orbs *)

Inductive OrbType : Type := attractor | repulsor.

Module Orb.
Record t (T : Type) : Type := mk {
  position : Vector T;
  radius : T;
  type : OrbType;
  color : string
}.
End Orb.

Abbreviation Orb := Orb.t.

(** ** class Boid

  A boid is a heap object: [oid] stands for its reference, which is what
  [other !== this] compares. *)

Module Boid.
Record t (T : Type) : Type := mk {
  oid : nat;
  position : Vector T;
  velocity : Vector T;
  acceleration : Vector T;
  size : T;
  color : string
}.

Section Methods.
Context {T : Type} {N : Number T}.
Local Open Scope js_scope.

Definition set_position (this : t T) (p : Vector T) : t T :=
  mk (oid this) p (velocity this) (acceleration this) (size this) (color this).
Definition set_acceleration (this : t T) (a : Vector T) : t T :=
  mk (oid this) (position this) (velocity this) a (size this) (color this).

(** [other !== this] *)
Definition differs (other this : t T) : bool :=
  negb (Nat.eqb (oid other) (oid this)).

Definition applyForce (this : t T) (force : Vector T) : t T :=
  set_acceleration this (Vector.add (acceleration this) force).

(** The tail shared by the three rules once [total > 0]:
    [setMag(MAX_SPEED); sub(this.velocity); limit(MAX_FORCE)]. *)
Definition steer (this : t T) (steering : Vector T) : Vector T :=
  Vector.limit
    (Vector.sub (Vector.setMag steering MAX_SPEED) (velocity this))
    MAX_FORCE.

(** One iteration of the loop of [separation]; the state is
    [(steering, total)]. *)
Definition separation_body (this : t T) (desiredSeparation : T)
    (st : Vector T * T) (other : t T) : Vector T * T :=
  let (steering, total) := st in
  if differs other this then
    let d := Vector.dist (position this) (position other) in
    if d <? desiredSeparation then
      let diff := Vector.sub (Vector.copy (position this)) (position other) in
      let diff := Vector.div diff (d * d) in
      (Vector.add steering diff, total + #1)
    else st
  else st.

Definition separation (this : t T) (boids : list (t T)) : Vector T :=
  let desiredSeparation := size this * #6 in
  let (steering, total) :=
    fold_left (separation_body this desiredSeparation) boids
              (Vector.new #0 #0, #0) in
  if total >? #0 then steer this (Vector.div steering total)
  else steering.

Definition alignment_body (radius : T) (this : t T)
    (st : Vector T * T) (other : t T) : Vector T * T :=
  let (steering, total) := st in
  if differs other this
     && (Vector.dist (position this) (position other) <? radius)
  then (Vector.add steering (velocity other), total + #1)
  else st.

Definition alignment (p : Params T) (this : t T) (boids : list (t T))
    : Vector T :=
  let (steering, total) :=
    fold_left (alignment_body (PERCEPTION_RADIUS p) this) boids
              (Vector.new #0 #0, #0) in
  if total >? #0 then steer this (Vector.div steering total)
  else steering.

Definition cohesion_body (radius : T) (this : t T)
    (st : Vector T * T) (other : t T) : Vector T * T :=
  let (steering, total) := st in
  if differs other this
     && (Vector.dist (position this) (position other) <? radius)
  then (Vector.add steering (position other), total + #1)
  else st.

Definition cohesion (p : Params T) (this : t T) (boids : list (t T))
    : Vector T :=
  let (steering, total) :=
    fold_left (cohesion_body (PERCEPTION_RADIUS p) this) boids
              (Vector.new #0 #0, #0) in
  if total >? #0 then
    steer this (Vector.sub (Vector.div steering total) (position this))
  else steering.

Definition flock (p : Params T) (this : t T) (boids : list (t T)) : t T :=
  let sep := separation this boids in
  let ali := alignment p this boids in
  let coh := cohesion p this boids in
  let sep := Vector.mult sep (SEPARATION_WEIGHT p) in
  let ali := Vector.mult ali (ALIGNMENT_WEIGHT p) in
  let coh := Vector.mult coh (COHESION_WEIGHT p) in
  applyForce (applyForce (applyForce this sep) ali) coh.

(** The force one orb exerts, [None] when the range test fails. *)
Definition orbForce (p : Params T) (this : t T) (orb : Orb T)
    : option (Vector T) :=
  let d := Vector.dist (position this) (Orb.position orb) in
  if (d >? #1) && (d <? PERCEPTION_RADIUS p * #2) then
    let diff := Vector.sub (Vector.copy (Orb.position orb)) (position this) in
    let diff := Vector.normalize diff in
    let strength :=
      match Orb.type orb with
      | attractor => ORB_STRENGTH / d
      | repulsor => (- ORB_STRENGTH) / d
      end in
    let force := Vector.mult diff strength in
    Some (Vector.limit force MAX_FORCE)
  else None.

Definition applyOrbForces_body (p : Params T) (this : t T) (orb : Orb T)
    : t T :=
  match orbForce p this orb with
  | Some force => applyForce this force
  | None => this
  end.

Definition applyOrbForces (p : Params T) (this : t T) (orbs : list (Orb T))
    : t T :=
  fold_left (applyOrbForces_body p) orbs this.

Definition update (this : t T) : t T :=
  let v := Vector.limit (Vector.add (velocity this) (acceleration this))
                        MAX_SPEED in
  mk (oid this)
     (Vector.add (position this) v)
     v
     (Vector.mult (acceleration this) #0)
     (size this) (color this).

(** One axis of [edges(true)]: the new coordinate. *)
Definition wrap_axis (c extent : T) : T :=
  if c >? extent then #0
  else if c <? #0 then extent
  else c.

(** One axis of [edges(false)]: the new coordinate and velocity
    component. *)
Definition bounce_axis (c v extent : T) : T * T :=
  if c >? extent then (extent - #1, v * #(-1))
  else if c <? #0 then (#1, v * #(-1))
  else (c, v).

Definition edges (canvas : Canvas T) (wrap : bool) (this : t T) : t T :=
  let pos := position this in
  let vel := velocity this in
  if wrap then
    set_position this
      (Vector.mk (wrap_axis (Vector.x pos) (width canvas))
                 (wrap_axis (Vector.y pos) (height canvas)))
  else
    let (px, vx) := bounce_axis (Vector.x pos) (Vector.x vel) (width canvas) in
    let (py, vy) := bounce_axis (Vector.y pos) (Vector.y vel) (height canvas) in
    mk (oid this) (Vector.mk px py) (Vector.mk vx vy)
       (acceleration this) (size this) (color this).
End Methods.
End Boid.

Abbreviation Boid := Boid.t.

(** ** The animation loop

    [for (let boid of boids) { boid.flock(boids); boid.applyOrbForces(orbs);
    boid.update(); boid.edges(wrap); boid.draw(); }]

    The array holds references, so the boids the loop has already handled
    stay in their slots with their new state: [done] is that prefix,
    [todo] the slots still to come. *)

Section Animate.
Context {T : Type} {N : Number T}.

(** The body of the loop for [boid], [boids] being the array at that
    moment. *)
Definition frame_step (p : Params T) (canvas : Canvas T) (orbs : list (Orb T))
    (boid : Boid T) (boids : list (Boid T)) : Boid T :=
  Boid.edges canvas (wrap p)
    (Boid.update (Boid.applyOrbForces p (Boid.flock p boid boids) orbs)).

Fixpoint animate_loop (p : Params T) (canvas : Canvas T) (orbs : list (Orb T))
    (done todo : list (Boid T)) : list (Boid T) :=
  match todo with
  | [] => done
  | boid :: rest =>
      animate_loop p canvas orbs
        (done ++ [frame_step p canvas orbs boid (done ++ todo)]) rest
  end.

Definition animate (p : Params T) (canvas : Canvas T) (orbs : list (Orb T))
    (boids : list (Boid T)) : list (Boid T) :=
  animate_loop p canvas orbs [] boids.

(** The same loop, recording the array each [boid.flock(boids)] call
    receives. *)
Fixpoint scans_loop (p : Params T) (canvas : Canvas T) (orbs : list (Orb T))
    (done todo : list (Boid T)) : list (list (Boid T)) :=
  match todo with
  | [] => []
  | boid :: rest =>
      (done ++ todo)
        :: scans_loop p canvas orbs
             (done ++ [frame_step p canvas orbs boid (done ++ todo)]) rest
  end.

Definition scans (p : Params T) (canvas : Canvas T) (orbs : list (Orb T))
    (boids : list (Boid T)) : list (list (Boid T)) :=
  scans_loop p canvas orbs [] boids.
End Animate.

(** ** Mouse handlers *)

Record MouseEvent (T : Type) : Type := {
  button : Z;
  clientX : T;
  clientY : T;
  defaultPrevented : bool
}.

(** What [canvas.getBoundingClientRect()] gives the handlers. *)
Record ClientRect (T : Type) : Type := { left : T; top : T }.

Section Handlers.
Context {T : Type} {N : Number T}.
Local Open Scope js_scope.

Definition preventDefault (e : MouseEvent T) : MouseEvent T :=
  {| button := button e; clientX := clientX e; clientY := clientY e;
     defaultPrevented := true |}.

(** [canvas.addEventListener('mousedown', ...)]: the new [orbs] array. *)
Definition on_mousedown (rect : ClientRect T) (event : MouseEvent T)
    (orbs : list (Orb T)) : list (Orb T) :=
  let mouseX := clientX event - left rect in
  let mouseY := clientY event - top rect in
  if Z.eqb (button event) 2 then
    orbs ++ [Orb.mk (Vector.new mouseX mouseY) ORB_RADIUS attractor
                    "rgba(0, 100, 255, 0.5)"]
  else if Z.eqb (button event) 0 then
    orbs ++ [Orb.mk (Vector.new mouseX mouseY) ORB_RADIUS repulsor
                    "rgba(255, 0, 0, 0.5)"]
  else orbs.

(** [canvas.addEventListener('contextmenu', ...)] *)
Definition on_contextmenu (e : MouseEvent T) : MouseEvent T :=
  preventDefault e.
End Handlers.

(** ** new Boid(), initSimulation and the control handlers

    What the page keeps between events: the population size, the slider
    parameters, the canvas extent, the two arrays and the colour of the
    wrap button.  Slider texts and the displayed values are left to the
    page; a handler receives the number its [parseInt] or [parseFloat]
    call returned. *)

Record Sim (T : Type) : Type := {
  NUM_BOIDS : Z;
  sim_params : Params T;
  sim_canvas : Canvas T;
  sim_boids : list (Boid T);
  sim_orbs : list (Orb T);
  wrapAround_backgroundColor : string
}.

Section Simulation.
Context {T : Type} {N : Number T}.
Local Open Scope js_scope.

(** [new Boid()].  [rand k] is what the [k]-th call of [Math.random()]
    from here on returns (the constructor makes five, in source order),
    [hsl] renders the colour template from its number, [ref] is the
    reference of the new object. *)
Definition new_Boid (hsl : T -> string) (canvas : Canvas T) (rand : nat -> T)
    (ref : nat) : Boid T :=
  let position :=
    Vector.new (rand 0%nat * width canvas) (rand 1%nat * height canvas) in
  let velocity := Vector.new (rand 2%nat * #4 - #2) (rand 3%nat * #4 - #2) in
  let velocity := Vector.limit velocity MAX_SPEED in
  Boid.mk ref position velocity (Vector.new #0 #0) #2
          (hsl (rand 4%nat * #360)).

(** [for (let i = 0; i < NUM_BOIDS; i++) boids.push(new Boid())], [n]
    being the number of iterations left. *)
Fixpoint populate (hsl : T -> string) (canvas : Canvas T) (rand : nat -> T)
    (ref : nat) (n : nat) : list (Boid T) :=
  match n with
  | O => []
  | S n' =>
      new_Boid hsl canvas rand ref
        :: populate hsl canvas (fun k => rand (5 + k)%nat) (S ref) n'
  end.

(** One call of [animate()]: the canvas takes the size [resized] of its
    CSS box, then the loop runs. *)
Definition animate_frame (resized : Canvas T) (s : Sim T) : Sim T :=
  {| NUM_BOIDS := NUM_BOIDS s;
     sim_params := sim_params s;
     sim_canvas := resized;
     sim_boids := animate (sim_params s) resized (sim_orbs s) (sim_boids s);
     sim_orbs := sim_orbs s;
     wrapAround_backgroundColor := wrapAround_backgroundColor s |}.

Definition initSimulation (hsl : T -> string) (rand : nat -> T) (ref : nat)
    (resized : Canvas T) (s : Sim T) : Sim T :=
  animate_frame resized
    {| NUM_BOIDS := NUM_BOIDS s;
       sim_params := sim_params s;
       sim_canvas := sim_canvas s;
       sim_boids := populate hsl (sim_canvas s) rand ref
                             (Z.to_nat (NUM_BOIDS s));
       sim_orbs := [];
       wrapAround_backgroundColor := wrapAround_backgroundColor s |}.

(** [wrapAround.addEventListener('click', ...)] *)
Definition on_wrap_click (s : Sim T) : Sim T :=
  let p := sim_params s in
  let w := negb (wrap p) in
  {| NUM_BOIDS := NUM_BOIDS s;
     sim_params :=
       {| PERCEPTION_RADIUS := PERCEPTION_RADIUS p;
          SEPARATION_WEIGHT := SEPARATION_WEIGHT p;
          ALIGNMENT_WEIGHT := ALIGNMENT_WEIGHT p;
          COHESION_WEIGHT := COHESION_WEIGHT p;
          wrap := w |};
     sim_canvas := sim_canvas s;
     sim_boids := sim_boids s;
     sim_orbs := sim_orbs s;
     wrapAround_backgroundColor := if w then "green" else "red" |}.

(** [resetButton.addEventListener('click', ...)]; [1.5] is [3 / 2]. *)
Definition on_reset_click (hsl : T -> string) (rand : nat -> T) (ref : nat)
    (resized : Canvas T) (s : Sim T) : Sim T :=
  initSimulation hsl rand ref resized
    {| NUM_BOIDS := 500;
       sim_params :=
         {| PERCEPTION_RADIUS := #50;
            SEPARATION_WEIGHT := #3 / #2;
            ALIGNMENT_WEIGHT := #1;
            COHESION_WEIGHT := #1;
            wrap := wrap (sim_params s) |};
       sim_canvas := sim_canvas s;
       sim_boids := sim_boids s;
       sim_orbs := sim_orbs s;
       wrapAround_backgroundColor := wrapAround_backgroundColor s |}.

(** The canvas [mousedown] listener on the page state. *)
Definition on_canvas_mousedown (rect : ClientRect T) (event : MouseEvent T)
    (s : Sim T) : Sim T :=
  {| NUM_BOIDS := NUM_BOIDS s;
     sim_params := sim_params s;
     sim_canvas := sim_canvas s;
     sim_boids := sim_boids s;
     sim_orbs := on_mousedown rect event (sim_orbs s);
     wrapAround_backgroundColor := wrapAround_backgroundColor s |}.
End Simulation.

(** ** Carrier 1: binary64 *)

Definition float_of_Z (z : Z) : PrimFloat.float :=
  match z with
  | Z0 => PrimFloat.zero
  | Zpos _ => PrimFloat.of_uint63 (Uint63.of_Z z)
  | Zneg q => PrimFloat.opp (PrimFloat.of_uint63 (Uint63.of_Z (Zpos q)))
  end.

#[export] Instance FloatNumber : Number PrimFloat.float := {|
  num_lit := float_of_Z;
  num_add := PrimFloat.add;
  num_sub := PrimFloat.sub;
  num_mul := PrimFloat.mul;
  num_div := PrimFloat.div;
  num_neg := PrimFloat.opp;
  num_sqrt := PrimFloat.sqrt;
  num_lt := PrimFloat.ltb
|}.

(** ** Carrier 2: exact arithmetic on finite numbers *)

Definition Rltb (a b : R) : bool := if Rlt_dec a b then true else false.

#[export] Instance RNumber : Number R := {|
  num_lit := IZR;
  num_add := Rplus;
  num_sub := Rminus;
  num_mul := Rmult;
  num_div := Rdiv;
  num_neg := Ropp;
  num_sqrt := sqrt;
  num_lt := Rltb
|}.

(** ** Carrier 3: exact arithmetic with the IEEE special values

    Operations follow IEEE 754 on [NaN] and the infinities, and are exact
    on finite numbers: nothing is rounded, a product of non-zero numbers is
    never 0 and a sum of finite numbers is never infinite, where binary64
    underflows and overflows.  A statement on this carrier says how the
    special values propagate; it says nothing of the finiteness of a
    binary64 run.  The reals have one zero; every zero divisor of this
    program is a square or a count, hence [+0], and [a / 0] is read with
    that sign. *)

Inductive XR : Type :=
| Fin (r : R)
| PInf
| NInf
| NaN.

(** The infinity with the sign of [s]; [NaN] when [s] is zero. *)
Definition xr_inf (s : R) : XR :=
  if Rlt_dec 0 s then PInf else if Rlt_dec s 0 then NInf else NaN.

Definition xr_neg (a : XR) : XR :=
  match a with
  | Fin r => Fin (- r)
  | PInf => NInf
  | NInf => PInf
  | NaN => NaN
  end.

Definition xr_add (a b : XR) : XR :=
  match a, b with
  | NaN, _ | _, NaN => NaN
  | Fin r, Fin s => Fin (r + s)
  | PInf, NInf | NInf, PInf => NaN
  | PInf, _ | _, PInf => PInf
  | NInf, _ | _, NInf => NInf
  end.

Definition xr_sub (a b : XR) : XR := xr_add a (xr_neg b).

Definition xr_mul (a b : XR) : XR :=
  match a, b with
  | NaN, _ | _, NaN => NaN
  | Fin r, Fin s => Fin (r * s)
  | Fin r, PInf | PInf, Fin r => xr_inf r
  | Fin r, NInf | NInf, Fin r => xr_inf (- r)
  | PInf, PInf | NInf, NInf => PInf
  | PInf, NInf | NInf, PInf => NInf
  end.

Definition xr_div (a b : XR) : XR :=
  match a, b with
  | NaN, _ | _, NaN => NaN
  | Fin r, Fin s => if Req_dec_T s 0 then xr_inf r else Fin (r / s)
  | Fin _, PInf | Fin _, NInf => Fin 0
  | PInf, Fin s => if Rlt_dec s 0 then NInf else PInf
  | NInf, Fin s => if Rlt_dec s 0 then PInf else NInf
  | PInf, PInf | PInf, NInf | NInf, PInf | NInf, NInf => NaN
  end.

Definition xr_sqrt (a : XR) : XR :=
  match a with
  | Fin r => if Rlt_dec r 0 then NaN else Fin (sqrt r)
  | PInf => PInf
  | NInf | NaN => NaN
  end.

Definition xr_lt (a b : XR) : bool :=
  match a, b with
  | NaN, _ | _, NaN => false
  | Fin r, Fin s => Rltb r s
  | NInf, Fin _ | NInf, PInf | Fin _, PInf => true
  | _, _ => false
  end.

#[export] Instance XRNumber : Number XR := {|
  num_lit := fun z => Fin (IZR z);
  num_add := xr_add;
  num_sub := xr_sub;
  num_mul := xr_mul;
  num_div := xr_div;
  num_neg := xr_neg;
  num_sqrt := xr_sqrt;
  num_lt := xr_lt
|}.

(** A finite number read in [XR]; a vector and a boid with finite fields. *)
Definition vec_fin (v : Vector R) : Vector XR :=
  Vector.mk (Fin (Vector.x v)) (Fin (Vector.y v)).

Definition boid_fin (b : Boid R) : Boid XR :=
  Boid.mk (Boid.oid b) (vec_fin (Boid.position b)) (vec_fin (Boid.velocity b))
          (vec_fin (Boid.acceleration b)) (Fin (Boid.size b)) (Boid.color b).

(** ** Notions the statements use *)

(** Dot product of two vectors. *)
Definition dot (a b : Vector R) : R :=
  (Vector.x a * Vector.x b + Vector.y a * Vector.y b)%R.

(** The forces the orbs in range exert on [this], in array order. *)
Definition orb_forces (p : Params R) (this : Boid R) (orbs : list (Orb R))
    : list (Vector R) :=
  flat_map (fun orb => match Boid.orbForce p this orb with
                       | Some force => [force]
                       | None => []
                       end) orbs.

(** ** The steering rules as the specification words them

    Written from the specification, over exact arithmetic and with its own
    vector operations: [normalize] is a no-op at magnitude 0,
    [withMagnitude m] is [normalize] then [scale m], [clampMagnitude max]
    rescales to [max] only when the magnitude exceeds it. *)

Module Spec.
Local Open Scope R_scope.

Definition zero : Vector R := Vector.mk 0 0.

Definition plus (a b : Vector R) : Vector R :=
  Vector.mk (Vector.x a + Vector.x b) (Vector.y a + Vector.y b).

Definition minus (a b : Vector R) : Vector R :=
  Vector.mk (Vector.x a - Vector.x b) (Vector.y a - Vector.y b).

Definition scale (k : R) (a : Vector R) : Vector R :=
  Vector.mk (k * Vector.x a) (k * Vector.y a).

Definition magnitude (a : Vector R) : R :=
  sqrt ((Vector.x a) ^ 2 + (Vector.y a) ^ 2).

Definition distance (a b : Vector R) : R := magnitude (minus a b).

Definition normalize (a : Vector R) : Vector R :=
  if Req_dec_T (magnitude a) 0 then a else scale (/ magnitude a) a.

Definition withMagnitude (m : R) (a : Vector R) : Vector R :=
  scale m (normalize a).

Definition clampMagnitude (max : R) (a : Vector R) : Vector R :=
  if Rlt_dec max (magnitude a) then withMagnitude max a else a.

(** The sum of a list of vectors. *)
Definition sum (vs : list (Vector R)) : Vector R := fold_right plus zero vs.

(** The other agents closer than [range] to [this]. *)
Definition neighbours (this : Boid R) (range : R) (boids : list (Boid R))
    : list (Boid R) :=
  filter (fun other =>
            negb (Nat.eqb (Boid.oid other) (Boid.oid this))
            && Rltb (distance (Boid.position this) (Boid.position other)) range)
         boids.

Definition separation_spec (this : Boid R) (boids : list (Boid R))
    : Vector R :=
  let desiredSeparation := Boid.size this * 6 in
  let near := neighbours this desiredSeparation boids in
  let contribution other :=
    let d := distance (Boid.position this) (Boid.position other) in
    scale (/ d ^ 2) (minus (Boid.position this) (Boid.position other)) in
  let accumulated := sum (map contribution near) in
  let count := List.length near in
  if Nat.ltb 0 count then
    clampMagnitude (5 / 10)
      (minus (withMagnitude 5 (scale (/ INR count) accumulated))
             (Boid.velocity this))
  else zero.

(** The mean of a list of vectors. *)
Definition mean (vs : list (Vector R)) : Vector R :=
  scale (/ INR (List.length vs)) (sum vs).

(** Alignment: the velocities of the neighbours within the perception
    radius are averaged, the average is rescaled to the maximal speed, the
    current velocity is subtracted and the result clamped to the maximal
    force. *)
Definition alignment_spec (radius : R) (this : Boid R)
    (boids : list (Boid R)) : Vector R :=
  let near := neighbours this radius boids in
  if Nat.ltb 0 (List.length near) then
    clampMagnitude (5 / 10)
      (minus (withMagnitude 5 (mean (map (@Boid.velocity _) near)))
             (Boid.velocity this))
  else zero.

(** Cohesion: the positions of the neighbours within the perception radius
    are averaged to a centroid, the own position is subtracted, the
    direction is rescaled to the maximal speed, the current velocity is
    subtracted and the result clamped to the maximal force. *)
Definition cohesion_spec (radius : R) (this : Boid R)
    (boids : list (Boid R)) : Vector R :=
  let near := neighbours this radius boids in
  let centroid := mean (map (@Boid.position _) near) in
  if Nat.ltb 0 (List.length near) then
    clampMagnitude (5 / 10)
      (minus (withMagnitude 5 (minus centroid (Boid.position this)))
             (Boid.velocity this))
  else zero.
End Spec.

(** ** A frame as the specification words it

    Every agent is stepped against the array as it was when the frame
    began. *)
Definition animate_snapshot {T : Type} {N : Number T} (p : Params T)
    (canvas : Canvas T) (orbs : list (Orb T)) (boids : list (Boid T))
    : list (Boid T) :=
  map (fun boid => frame_step p canvas orbs boid boids) boids.

(** ** The precondition of a safe separation scan

    Every other agent closer than [size * 6] to [this] is at a strictly
    positive distance. *)
Definition apart (this : Boid R) (boids : list (Boid R)) : Prop :=
  forall other, In other boids ->
    Boid.oid other <> Boid.oid this ->
    (Vector.dist (Boid.position this) (Boid.position other)
     < Boid.size this * 6)%R ->
    (0 < Vector.dist (Boid.position this) (Boid.position other))%R.

(** The loop state [(steering, total)] read in [XR]. *)
Definition state_fin (st : Vector R * R) : Vector XR * XR :=
  (vec_fin (fst st), Fin (snd st)).

Definition params_fin (p : Params R) : Params XR :=
  {| PERCEPTION_RADIUS := Fin (PERCEPTION_RADIUS p);
     SEPARATION_WEIGHT := Fin (SEPARATION_WEIGHT p);
     ALIGNMENT_WEIGHT := Fin (ALIGNMENT_WEIGHT p);
     COHESION_WEIGHT := Fin (COHESION_WEIGHT p);
     wrap := wrap p |}.

(** [other] is another agent closer than [range] to [this]: the test the
    three scans make. *)
Definition in_range (this : Boid R) (range : R) (other : Boid R) : bool :=
  Boid.differs other this
  && Rltb (Vector.dist (Boid.position this) (Boid.position other)) range.

(** ** Notions of the further statements *)

(** The agents of [boids] that the scan of radius [range] of [this]
    counts, on any carrier. *)
Definition counted {T : Type} {N : Number T} (this : Boid T) (range : T)
    (other : Boid T) : bool :=
  Boid.differs other this
  && num_lt (Vector.dist (Boid.position this) (Boid.position other)) range.

(** An agent moved by the vector [t]. *)
Definition shift (t : Vector R) (b : Boid R) : Boid R :=
  Boid.set_position b (Vector.add (Boid.position b) t).

(** A point of the canvas rectangle, borders included. *)
Definition inside (canvas : Canvas R) (v : Vector R) : Prop :=
  (0 <= Vector.x v <= width canvas /\ 0 <= Vector.y v <= height canvas)%R.

(** What [Math.random()] returns. *)
Definition unit_draws (rand : nat -> R) : Prop :=
  forall k, (0 <= rand k < 1)%R.

(** An orb with finite fields, read in [XR]. *)
Definition orb_fin (o : Orb R) : Orb XR :=
  Orb.mk (vec_fin (Orb.position o)) (Fin (Orb.radius o)) (Orb.type o)
         (Orb.color o).

(** No scan of the frame loop meets an agent at the very position of the
    scanning one: [apart] holds for each agent against the array as the
    loop presents it. *)
Fixpoint scans_apart (p : Params R) (canvas : Canvas R) (orbs : list (Orb R))
    (done todo : list (Boid R)) : Prop :=
  match todo with
  | [] => True
  | boid :: rest =>
      apart boid (done ++ todo)
      /\ scans_apart p canvas orbs
           (done ++ [frame_step p canvas orbs boid (done ++ todo)]) rest
  end.

(** What identifies an agent on screen: reference, size and colour. *)
Definition badge {T : Type} (b : Boid T) : nat * T * string :=
  (Boid.oid b, Boid.size b, Boid.color b).

(** The agent a successful constructor call leaves: on the canvas, each
    velocity component in [-2, 2), slower than [MAX_SPEED], no
    acceleration, size 2. *)
Definition fresh_agent (canvas : Canvas R) (b : Boid R) : Prop :=
  inside canvas (Boid.position b)
  /\ (- 2 <= Vector.x (Boid.velocity b) < 2)%R
  /\ (- 2 <= Vector.y (Boid.velocity b) < 2)%R
  /\ (Vector.mag (Boid.velocity b) < MAX_SPEED)%R
  /\ Boid.acceleration b = Vector.mk 0%R 0%R
  /\ Boid.size b = 2%R.

(** A run of clicks on the wrap button, and of presses on the canvas. *)
Definition wrap_clicks {T : Type} (n : nat) (s : Sim T) : Sim T :=
  Nat.iter n on_wrap_click s.

Definition canvas_presses {T : Type} {N : Number T} (rect : ClientRect T)
    (events : list (MouseEvent T)) (s : Sim T) : Sim T :=
  fold_left (fun s e => on_canvas_mousedown rect e s) events s.

(** The presses that place an orb. *)
Definition places_orb {T : Type} (e : MouseEvent T) : bool :=
  Z.eqb (button e) 2 || Z.eqb (button e) 0.

(** ** Sample data for the closed statements *)

(** The sliders at their defaults. *)
Definition default_params : Params R :=
  {| PERCEPTION_RADIUS := 50; SEPARATION_WEIGHT := 3 / 2;
     ALIGNMENT_WEIGHT := 1; COHESION_WEIGHT := 1; wrap := true |}%R.

(** A boid of size 2 with zero acceleration. *)
Definition boid_at (i : nat) (px py vx vy : R) : Boid R :=
  Boid.mk i (Vector.mk px py) (Vector.mk vx vy) (Vector.mk 0 0)%R 2%R
          "hsl(0, 70%, 65%)".

Definition orb_at (px py : R) (type : OrbType) : Orb R :=
  Orb.mk (Vector.mk px py) ORB_RADIUS type "rgba(0, 100, 255, 0.5)".

(** Binary64 sample data: the sliders at their defaults, an 800 x 600
    canvas, a boid of size 2 with zero acceleration. *)
Definition float_params : Params PrimFloat.float :=
  {| PERCEPTION_RADIUS := num_lit 50;
     SEPARATION_WEIGHT := num_div (num_lit 3) (num_lit 2);
     ALIGNMENT_WEIGHT := num_lit 1; COHESION_WEIGHT := num_lit 1;
     wrap := true |}.

Definition float_canvas : Canvas PrimFloat.float :=
  {| width := num_lit 800; height := num_lit 600 |}.

Definition float_boid (i : nat) (px py vx vy : Z) : Boid PrimFloat.float :=
  Boid.mk i (Vector.mk (num_lit px) (num_lit py))
          (Vector.mk (num_lit vx) (num_lit vy))
          (Vector.mk (num_lit 0) (num_lit 0)) (num_lit 2)
          "hsl(0, 70%, 65%)".

(** The binary64 quotient of two integers, and a boid of size 2 with zero
    acceleration at a binary64 position and velocity. *)
Definition float_ratio (n d : Z) : PrimFloat.float :=
  num_div (num_lit n) (num_lit d).

Definition float_agent (i : nat) (position velocity : Vector PrimFloat.float)
    : Boid PrimFloat.float :=
  Boid.mk i position velocity (Vector.mk (num_lit 0) (num_lit 0)) (num_lit 2)
          "hsl(0, 70%, 65%)".

(** Two agents about to leave the 800 x 600 canvas by its lower right
    corner: at (799.5, 599.5) and (799.75, 599.75), both with velocity
    (3, 3). *)
Definition corner_pair : list (Boid PrimFloat.float) :=
  [float_agent 0 (Vector.mk (float_ratio 1599 2) (float_ratio 1199 2))
               (Vector.mk (num_lit 3) (num_lit 3));
   float_agent 1 (Vector.mk (float_ratio 3199 4) (float_ratio 2399 4))
               (Vector.mk (num_lit 3) (num_lit 3))].

(** [n] frames of the simulation with the default sliders, no orb, on the
    800 x 600 canvas. *)
Definition float_frames (n : nat) (boids : list (Boid PrimFloat.float))
    : list (Boid PrimFloat.float) :=
  Nat.iter n (animate float_params float_canvas []) boids.






(** * Exact arithmetic: the vector class *)

Local Open Scope R_scope.

Lemma Rltb_true (a b : R) : Rltb a b = true <-> a < b.
Proof. unfold Rltb. destruct (Rlt_dec a b); split; intros; try easy. Qed.

Lemma Rltb_false (a b : R) : Rltb a b = false <-> b <= a.
Proof.
  unfold Rltb. destruct (Rlt_dec a b); split; intros; try easy; lra.
Qed.

(** Reads the interface operations at the carrier [R]. *)
Ltac rnum :=
  cbn [num_lit num_add num_sub num_mul num_div num_neg num_sqrt num_lt
       RNumber] in *.

Ltac case_lt a b :=
  let H := fresh "Hlt" in
  destruct (Rltb a b) eqn:H;
  [apply Rltb_true in H | apply Rltb_false in H].

Lemma or_zero_R (a : R) : or_zero a = a.
Proof.
  unfold or_zero. cbn. case_lt a 0; cbn; trivial.
  case_lt 0 a; cbn; trivial. lra.
Qed.

Lemma new_R (a b : R) : Vector.new a b = Vector.mk a b.
Proof. unfold Vector.new. now rewrite !or_zero_R. Qed.

Lemma copy_R (v : Vector R) : Vector.copy v = v.
Proof. destruct v. unfold Vector.copy. now rewrite new_R. Qed.

Lemma mag_nonneg (v : Vector R) : 0 <= Vector.mag v.
Proof. apply sqrt_pos. Qed.

Lemma sumsq_nonneg (a b : R) : 0 <= a * a + b * b.
Proof. nra. Qed.

Lemma mag_sqr (v : Vector R) :
  Vector.mag v * Vector.mag v
  = Vector.x v * Vector.x v + Vector.y v * Vector.y v.
Proof. unfold Vector.mag. cbn. apply sqrt_sqrt, sumsq_nonneg. Qed.

Lemma mag_mult (v : Vector R) (s : R) :
  0 <= s -> Vector.mag (Vector.mult v s) = Vector.mag v * s.
Proof.
  intros Hs. unfold Vector.mag, Vector.mult. cbn.
  replace (Vector.x v * s * (Vector.x v * s) + Vector.y v * s * (Vector.y v * s))
    with ((Vector.x v * Vector.x v + Vector.y v * Vector.y v) * (s * s)) by ring.
  rewrite sqrt_mult by (try apply sumsq_nonneg; nra).
  now rewrite (sqrt_square s Hs).
Qed.

Lemma normalize_pos (v : Vector R) :
  0 < Vector.mag v -> Vector.normalize v = Vector.div v (Vector.mag v).
Proof.
  intros H. unfold Vector.normalize. rnum.
  apply Rltb_true in H. now rewrite H.
Qed.

Lemma normalize_zero (v : Vector R) :
  Vector.mag v = 0 -> Vector.normalize v = v.
Proof.
  intros H. unfold Vector.normalize. rnum. rewrite H.
  case_lt 0 0; [lra | trivial].
Qed.

Lemma unit_quotient (a b m : R) :
  0 < m -> m * m = a * a + b * b ->
  sqrt (a / m * (a / m) + b / m * (b / m)) = 1.
Proof.
  intros Hm Hsq.
  replace (a / m * (a / m) + b / m * (b / m)) with 1; [apply sqrt_1 |].
  replace (a / m * (a / m) + b / m * (b / m))
    with ((a * a + b * b) / (m * m)) by (field; lra).
  rewrite <- Hsq. field. lra.
Qed.

Lemma mag_normalize (v : Vector R) :
  0 < Vector.mag v -> Vector.mag (Vector.normalize v) = 1.
Proof.
  intros H. rewrite (normalize_pos v H).
  apply unit_quotient; [assumption | apply mag_sqr].
Qed.

Lemma mag_setMag (v : Vector R) (m : R) :
  0 < Vector.mag v -> 0 <= m -> Vector.mag (Vector.setMag v m) = m.
Proof.
  intros Hv Hm. unfold Vector.setMag.
  rewrite mag_mult by assumption. rewrite mag_normalize by assumption. ring.
Qed.

Lemma limit_over (v : Vector R) (max : R) :
  max < Vector.mag v -> Vector.limit v max = Vector.setMag v max.
Proof.
  intros H. unfold Vector.limit. rnum. apply Rltb_true in H. now rewrite H.
Qed.

Lemma limit_under (v : Vector R) (max : R) :
  Vector.mag v <= max -> Vector.limit v max = v.
Proof.
  intros H. unfold Vector.limit. rnum. apply Rltb_false in H. now rewrite H.
Qed.

Lemma mag_limit (v : Vector R) (max : R) :
  0 <= max -> Vector.mag (Vector.limit v max) <= max.
Proof.
  intros Hmax. destruct (Rlt_le_dec max (Vector.mag v)) as [H | H].
  - rewrite limit_over by assumption.
    rewrite mag_setMag; lra.
  - now rewrite limit_under.
Qed.

Lemma MAX_SPEED_R : @MAX_SPEED R _ = 5.
Proof. reflexivity. Qed.

Lemma MAX_FORCE_R : @MAX_FORCE R _ = 1 / 2.
Proof. reflexivity. Qed.

(** * Integration and the speed cap *)

Lemma mag_flip_x (a b : R) :
  Vector.mag (Vector.mk (a * -1) b) = Vector.mag (Vector.mk a b).
Proof. unfold Vector.mag. cbn. f_equal. ring. Qed.

Lemma mag_flip_y (a b : R) :
  Vector.mag (Vector.mk a (b * -1)) = Vector.mag (Vector.mk a b).
Proof. unfold Vector.mag. cbn. f_equal. ring. Qed.

Lemma edges_speed (canvas : Canvas R) (w : bool) (b : Boid R) :
  Vector.mag (Boid.velocity (Boid.edges canvas w b))
  = Vector.mag (Boid.velocity b).
Proof.
  destruct b as [i pos [vx vy] acc sz col]. unfold Boid.edges.
  destruct w; [reflexivity |].
  cbn [Boid.position Boid.velocity Vector.x Vector.y].
  unfold Boid.bounce_axis. rnum.
  repeat match goal with
  | |- context [Rltb ?a ?b] => destruct (Rltb a b)
  end; cbn [Boid.velocity];
  rewrite ?mag_flip_x, ?mag_flip_y; try reflexivity;
  rewrite mag_flip_y, mag_flip_x; reflexivity.
Qed.

Lemma update_speed (b : Boid R) :
  Vector.mag (Boid.velocity (Boid.update b)) <= MAX_SPEED.
Proof.
  unfold Boid.update. cbn [Boid.velocity].
  apply mag_limit. rewrite MAX_SPEED_R. lra.
Qed.

Lemma update_acceleration (b : Boid R) :
  Boid.acceleration (Boid.update b) = Vector.mk 0 0.
Proof.
  unfold Boid.update, Vector.mult. cbn [Boid.acceleration]. rnum.
  f_equal; ring.
Qed.

Lemma edges_acceleration {T : Type} {N : Number T} (canvas : Canvas T)
    (w : bool) (b : Boid T) :
  Boid.acceleration (Boid.edges canvas w b) = Boid.acceleration b.
Proof.
  unfold Boid.edges. destruct w; [reflexivity |].
  destruct (Boid.bounce_axis _ _ (width canvas)).
  destruct (Boid.bounce_axis _ _ (height canvas)). reflexivity.
Qed.

(** * Boundaries *)

Lemma wrap_axis_cases (c extent : R) :
  0 <= extent ->
  (extent < c -> Boid.wrap_axis c extent = 0)
  /\ (c < 0 -> Boid.wrap_axis c extent = extent)
  /\ (0 <= c <= extent -> Boid.wrap_axis c extent = c).
Proof.
  intros He. unfold Boid.wrap_axis. rnum.
  case_lt extent c; [| case_lt c 0]; repeat split; intros; trivial; lra.
Qed.

Lemma bounce_axis_cases (c v extent : R) :
  0 <= extent ->
  (extent < c -> Boid.bounce_axis c v extent = (extent - 1, - v))
  /\ (c < 0 -> Boid.bounce_axis c v extent = (1, - v))
  /\ (0 <= c <= extent -> Boid.bounce_axis c v extent = (c, v)).
Proof.
  intros He. unfold Boid.bounce_axis. rnum.
  replace (v * -1) with (- v) by ring.
  case_lt extent c; [| case_lt c 0]; repeat split; intros; trivial; lra.
Qed.

(** C6. In wrap mode a coordinate beyond the canvas extent becomes 0 and
    a negative one becomes the extent, on each axis; velocity,
    acceleration, size and colour are unchanged, and so is the whole boid
    when it is inside the bounds.  The canvas extents are non-negative. *)
Theorem edges_wrap (canvas : Canvas R) (b : Boid R) :
  0 <= width canvas -> 0 <= height canvas ->
  let b' := Boid.edges canvas true b in
  let px := Vector.x (Boid.position b) in
  let py := Vector.y (Boid.position b) in
  (width canvas < px -> Vector.x (Boid.position b') = 0)
  /\ (px < 0 -> Vector.x (Boid.position b') = width canvas)
  /\ (height canvas < py -> Vector.y (Boid.position b') = 0)
  /\ (py < 0 -> Vector.y (Boid.position b') = height canvas)
  /\ (0 <= px <= width canvas -> Vector.x (Boid.position b') = px)
  /\ (0 <= py <= height canvas -> Vector.y (Boid.position b') = py)
  /\ Boid.velocity b' = Boid.velocity b
  /\ Boid.acceleration b' = Boid.acceleration b
  /\ Boid.size b' = Boid.size b
  /\ Boid.color b' = Boid.color b
  /\ (0 <= px <= width canvas -> 0 <= py <= height canvas -> b' = b).
Proof.
  intros Hw Hh b' px py.
  destruct (wrap_axis_cases px Hw) as (Hx1 & Hx2 & Hx3).
  destruct (wrap_axis_cases py Hh) as (Hy1 & Hy2 & Hy3).
  subst b' px py. destruct b as [i [px py] vel acc sz col].
  cbn [Boid.edges Boid.set_position Boid.position Boid.velocity
       Boid.acceleration Boid.size Boid.color Vector.x Vector.y] in *.
  repeat split; auto.
  intros Hx Hy. now rewrite Hx3, Hy3.
Qed.

Lemma edges_wrap_witness :
  let b := Boid.mk 0 (Vector.mk 801 (-1)) (Vector.mk 1 2) (Vector.mk 0 0)
                   2 "c" in
  let b' := Boid.edges (Build_Canvas 800 600) true b in
  0 <= 800 /\ 0 <= 600
  /\ Vector.x (Boid.position b') = 0
  /\ Vector.y (Boid.position b') = 600
  /\ Boid.velocity b' = Vector.mk 1 2.
Proof.
  intros b b'.
  assert (Hw : 0 <= width (Build_Canvas 800 600)) by (cbn; lra).
  assert (Hh : 0 <= height (Build_Canvas 800 600)) by (cbn; lra).
  destruct (@edges_wrap (Build_Canvas 800 600) b Hw Hh) as (Hx & _ & _ & Hy & _ & _ & Hv & _).
  cbn in Hw, Hh. repeat split; trivial.
  - apply Hx. cbn. lra.
  - apply Hy. cbn. lra.
Defined.

(** C7. In bounce mode a coordinate beyond the canvas extent becomes
    extent - 1 and a negative one becomes 1, with the velocity component
    of that axis negated; a coordinate inside the bounds keeps its value
    and its velocity component; acceleration, size and colour are
    unchanged.  The canvas extents are non-negative. *)
Theorem edges_bounce (canvas : Canvas R) (b : Boid R) :
  0 <= width canvas -> 0 <= height canvas ->
  let b' := Boid.edges canvas false b in
  let px := Vector.x (Boid.position b) in
  let py := Vector.y (Boid.position b) in
  let vx := Vector.x (Boid.velocity b) in
  let vy := Vector.y (Boid.velocity b) in
  (width canvas < px ->
     Vector.x (Boid.position b') = width canvas - 1
     /\ Vector.x (Boid.velocity b') = - vx)
  /\ (px < 0 ->
     Vector.x (Boid.position b') = 1 /\ Vector.x (Boid.velocity b') = - vx)
  /\ (height canvas < py ->
     Vector.y (Boid.position b') = height canvas - 1
     /\ Vector.y (Boid.velocity b') = - vy)
  /\ (py < 0 ->
     Vector.y (Boid.position b') = 1 /\ Vector.y (Boid.velocity b') = - vy)
  /\ (0 <= px <= width canvas ->
     Vector.x (Boid.position b') = px /\ Vector.x (Boid.velocity b') = vx)
  /\ (0 <= py <= height canvas ->
     Vector.y (Boid.position b') = py /\ Vector.y (Boid.velocity b') = vy)
  /\ Boid.acceleration b' = Boid.acceleration b
  /\ Boid.size b' = Boid.size b
  /\ Boid.color b' = Boid.color b.
Proof.
  intros Hw Hh b' px py vx vy.
  destruct (bounce_axis_cases px vx Hw) as (Hx1 & Hx2 & Hx3).
  destruct (bounce_axis_cases py vy Hh) as (Hy1 & Hy2 & Hy3).
  subst b' px py vx vy. destruct b as [i [px py] [vx vy] acc sz col].
  unfold Boid.edges.
  cbn [Boid.position Boid.velocity Boid.acceleration Boid.size Boid.color
       Boid.oid Vector.x Vector.y] in *.
  destruct (Boid.bounce_axis px vx (width canvas)) as [px' vx'].
  destruct (Boid.bounce_axis py vy (height canvas)) as [py' vy'].
  cbn [Boid.position Boid.velocity Boid.acceleration Boid.size Boid.color
       Vector.x Vector.y].
  repeat match goal with
  | |- _ /\ _ => split
  | |- _ -> _ => intro
  end; trivial;
  repeat match goal with
  | H : ?A -> _, H' : ?A |- _ => specialize (H H')
  end; congruence.
Qed.

Lemma edges_bounce_witness :
  let b := Boid.mk 0 (Vector.mk 801 (-1)) (Vector.mk 1 2) (Vector.mk 0 0)
                   2 "c" in
  let b' := Boid.edges (Build_Canvas 800 600) false b in
  0 <= 800 /\ 0 <= 600
  /\ Vector.x (Boid.position b') = 800 - 1
  /\ Vector.x (Boid.velocity b') = - 1
  /\ Vector.y (Boid.position b') = 1
  /\ Vector.y (Boid.velocity b') = - 2.
Proof.
  intros b b'.
  assert (Hw : 0 <= width (Build_Canvas 800 600)) by (cbn; lra).
  assert (Hh : 0 <= height (Build_Canvas 800 600)) by (cbn; lra).
  destruct (@edges_bounce (Build_Canvas 800 600) b Hw Hh) as (Hx & _ & _ & Hy & _).
  cbn in Hw, Hh.
  destruct Hx as [Hx1 Hx2]; [cbn; lra |].
  destruct Hy as [Hy1 Hy2]; [cbn; lra |].
  repeat split; trivial.
Defined.

(** * Mouse input *)

(** C9. A press of button 0 appends a repulsor at the canvas-relative
    pointer position, a press of button 2 appends an attractor there, a
    press of any other button leaves the orbs alone, and the context-menu
    handler suppresses the default action. *)
Theorem mouse_places_orbs :
  (forall (rect : ClientRect R) (cx cy : R) (dp : bool) (orbs : list (Orb R)),
      on_mousedown rect
        {| button := 0; clientX := cx; clientY := cy; defaultPrevented := dp |}
        orbs
      = orbs ++ [Orb.mk (Vector.mk (cx - left rect) (cy - top rect))
                        ORB_RADIUS repulsor "rgba(255, 0, 0, 0.5)"])
  /\ (forall (rect : ClientRect R) (cx cy : R) (dp : bool) (orbs : list (Orb R)),
      on_mousedown rect
        {| button := 2; clientX := cx; clientY := cy; defaultPrevented := dp |}
        orbs
      = orbs ++ [Orb.mk (Vector.mk (cx - left rect) (cy - top rect))
                        ORB_RADIUS attractor "rgba(0, 100, 255, 0.5)"])
  /\ (forall (rect : ClientRect R) (e : MouseEvent R) (orbs : list (Orb R)),
      button e <> 0%Z -> button e <> 2%Z -> on_mousedown rect e orbs = orbs)
  /\ (forall e : MouseEvent R,
      defaultPrevented (on_contextmenu e) = true
      /\ button (on_contextmenu e) = button e).
Proof.
  repeat split.
  - intros. unfold on_mousedown. cbn [button clientX clientY Z.eqb].
    now rewrite new_R.
  - intros. unfold on_mousedown. cbn [button clientX clientY Z.eqb].
    now rewrite new_R.
  - intros rect e orbs H0 H2. unfold on_mousedown.
    apply Z.eqb_neq in H0, H2. now rewrite H0, H2.
Qed.

Lemma mouse_places_orbs_witness :
  on_mousedown (Build_ClientRect 8 8)
    {| button := 1; clientX := 100; clientY := 50; defaultPrevented := false |}
    [] = [].
Proof.
  destruct mouse_places_orbs as (_ & _ & H & _).
  apply H; cbn; lia.
Defined.

(** * Orb forces *)

Lemma dist_mag_sub (a b : Vector R) :
  Vector.dist a b = Vector.mag (Vector.sub b a).
Proof.
  unfold Vector.dist, Vector.mag, Vector.sub, pow2.
  cbn [Vector.x Vector.y]. rnum. f_equal. ring.
Qed.

Lemma dist_sym (a b : Vector R) : Vector.dist a b = Vector.dist b a.
Proof.
  unfold Vector.dist, pow2. rnum. f_equal. ring.
Qed.

Lemma limit_scales (v : Vector R) (max : R) :
  0 < max -> exists c, 0 < c /\ Vector.limit v max = Vector.mult v c.
Proof.
  intros Hmax. destruct (Rlt_le_dec max (Vector.mag v)) as [H | H].
  - exists (max / Vector.mag v). split.
    + apply Rdiv_lt_0_compat; lra.
    + rewrite limit_over by assumption. unfold Vector.setMag.
      rewrite normalize_pos by lra.
      unfold Vector.mult, Vector.div. cbn [Vector.x Vector.y]. rnum.
      f_equal; field; lra.
  - exists 1. split; [lra |]. rewrite limit_under by assumption.
    destruct v. unfold Vector.mult. cbn [Vector.x Vector.y]. rnum.
    f_equal; ring.
Qed.

Lemma dot_self (v : Vector R) : dot v v = Vector.mag v * Vector.mag v.
Proof. unfold dot. now rewrite mag_sqr. Qed.

Lemma dot_mult_l (v w : Vector R) (c : R) :
  dot (Vector.mult v c) w = c * dot v w.
Proof. unfold dot, Vector.mult. cbn [Vector.x Vector.y]. rnum. ring. Qed.

Lemma dot_normalize_r (v w : Vector R) :
  0 < Vector.mag w ->
  dot v (Vector.normalize w) = dot v w / Vector.mag w.
Proof.
  intros H. rewrite normalize_pos by assumption.
  unfold dot, Vector.div. cbn [Vector.x Vector.y]. rnum. field. lra.
Qed.

Lemma orbForce_in_range (p : Params R) (this : Boid R) (orb : Orb R) :
  let d := Vector.dist (Boid.position this) (Orb.position orb) in
  1 < d < PERCEPTION_RADIUS p * 2 ->
  Boid.orbForce p this orb
  = Some (Vector.limit
            (Vector.mult
               (Vector.normalize
                  (Vector.sub (Orb.position orb) (Boid.position this)))
               match Orb.type orb with
               | attractor => ORB_STRENGTH / d
               | repulsor => - ORB_STRENGTH / d
               end)
            MAX_FORCE).
Proof.
  intros d [H1 H2]. unfold Boid.orbForce. rnum. fold d.
  apply Rltb_true in H1, H2. rewrite H1, H2. cbn [andb].
  rewrite copy_R. destruct (Orb.type orb); reflexivity.
Qed.

Lemma orbForce_out_of_range (p : Params R) (this : Boid R) (orb : Orb R) :
  let d := Vector.dist (Boid.position this) (Orb.position orb) in
  d <= 1 \/ PERCEPTION_RADIUS p * 2 <= d ->
  Boid.orbForce p this orb = None.
Proof.
  intros d H. unfold Boid.orbForce. rnum. fold d.
  destruct H as [H | H]; apply Rltb_false in H; rewrite H;
    [| rewrite andb_false_r]; reflexivity.
Qed.

Lemma orbForce_applyForce (p : Params R) (this : Boid R) (f : Vector R)
    (orb : Orb R) :
  Boid.orbForce p (Boid.applyForce this f) orb = Boid.orbForce p this orb.
Proof. reflexivity. Qed.

Lemma applyOrbForces_sum (p : Params R) (orbs : list (Orb R)) (this : Boid R) :
  Boid.applyOrbForces p this orbs
  = Boid.set_acceleration this
      (fold_left Vector.add (orb_forces p this orbs) (Boid.acceleration this)).
Proof.
  unfold Boid.applyOrbForces, orb_forces.
  induction orbs as [| orb orbs IH] in this |- *.
  - destruct this. reflexivity.
  - cbn [fold_left flat_map]. rewrite IH. unfold Boid.applyOrbForces_body.
    rewrite fold_left_app.
    destruct (Boid.orbForce p this orb) as [f |] eqn:E; [| reflexivity].
    cbn [fold_left].
    replace (flat_map _ orbs) with
      (flat_map (fun orb0 => match Boid.orbForce p this orb0 with
                             | Some force => [force]
                             | None => []
                             end) orbs)
      by (apply flat_map_ext; intros; now rewrite orbForce_applyForce).
    reflexivity.
Qed.

Lemma scaled_direction_dot (w : Vector R) (s c : R) :
  0 < Vector.mag w ->
  dot (Vector.mult (Vector.mult (Vector.normalize w) s) c) w
  = c * s * Vector.mag w.
Proof.
  intros Hw. rewrite !dot_mult_l.
  rewrite normalize_pos by assumption.
  pose proof (mag_sqr w) as Hsq.
  unfold dot, Vector.div. cbn [Vector.x Vector.y]. rnum.
  replace (Vector.x w / Vector.mag w * Vector.x w
           + Vector.y w / Vector.mag w * Vector.y w)
    with ((Vector.x w * Vector.x w + Vector.y w * Vector.y w) / Vector.mag w)
    by (field; lra).
  rewrite <- Hsq. field. lra.
Qed.

(** C4 (amended). An orb at distance [d] exerts a force exactly when
    [1 < d < 2 * PERCEPTION_RADIUS], both bounds excluded.  The force is
    the unit direction to the orb scaled by [ORB_STRENGTH / d] (attractor)
    or [-ORB_STRENGTH / d] (repulsor), clamped to [MAX_FORCE], and is added
    to the acceleration; its dot product with the direction to the orb is
    positive for an attractor and negative for a repulsor.  An orb at
    distance at most 1 or at least [2 * PERCEPTION_RADIUS] adds nothing. *)
Theorem orb_force_law (p : Params R) (this : Boid R) (orb : Orb R) :
  let d := Vector.dist (Boid.position this) (Orb.position orb) in
  let to_orb := Vector.sub (Orb.position orb) (Boid.position this) in
  let direction := Vector.normalize to_orb in
  let strength := match Orb.type orb with
                  | attractor => ORB_STRENGTH / d
                  | repulsor => - ORB_STRENGTH / d
                  end in
  let force := Vector.limit (Vector.mult direction strength) MAX_FORCE in
  (1 < d < PERCEPTION_RADIUS p * 2 ->
     Boid.orbForce p this orb = Some force
     /\ Boid.applyOrbForces p this [orb] = Boid.applyForce this force
     /\ Vector.mag direction = 1
     /\ Vector.mag force <= MAX_FORCE
     /\ match Orb.type orb with
        | attractor => 0 < dot force direction /\ 0 < dot force to_orb
        | repulsor => dot force direction < 0 /\ dot force to_orb < 0
        end)
  /\ (d <= 1 \/ PERCEPTION_RADIUS p * 2 <= d ->
     Boid.orbForce p this orb = None
     /\ Boid.applyOrbForces p this [orb] = this)
  /\ (forall orbs,
     Boid.applyOrbForces p this orbs
     = Boid.set_acceleration this
         (fold_left Vector.add (orb_forces p this orbs)
                    (Boid.acceleration this))).
Proof.
  intros d to_orb direction strength force.
  split; [| split].
  - intros Hd.
    pose proof (orbForce_in_range p this orb Hd) as Hf.
    fold d to_orb direction strength force in Hf.
    assert (Hmag : Vector.mag to_orb = d)
      by (subst to_orb d; now rewrite dist_mag_sub).
    assert (Hpos : 0 < Vector.mag to_orb) by lra.
    assert (Hmf : 0 < @MAX_FORCE R _) by (rewrite MAX_FORCE_R; lra).
    split; [exact Hf |]. split.
    { unfold Boid.applyOrbForces, Boid.applyOrbForces_body.
      cbn [fold_left]. now rewrite Hf. }
    split; [now apply mag_normalize |].
    split; [apply mag_limit; lra |].
    destruct (limit_scales (Vector.mult direction strength) Hmf)
      as (c & Hc & Hlim).
    fold force in Hlim.
    assert (Hto : dot force to_orb = c * strength * d).
    { rewrite Hlim. unfold direction.
      rewrite scaled_direction_dot by assumption. now rewrite Hmag. }
    assert (Hdir : dot force direction = c * strength).
    { unfold direction. rewrite dot_normalize_r by assumption.
      rewrite Hto, Hmag. field. lra. }
    rewrite Hto, Hdir.
    assert (Hs : 0 < ORB_STRENGTH / d)
      by (apply Rdiv_lt_0_compat; [unfold ORB_STRENGTH; rnum |]; lra).
    assert (Hcs : 0 < c * (ORB_STRENGTH / d))
      by (apply Rmult_lt_0_compat; lra).
    assert (Hcsd : 0 < c * (ORB_STRENGTH / d) * d)
      by (apply Rmult_lt_0_compat; lra).
    subst strength. destruct (Orb.type orb).
    + split; assumption.
    + replace (- ORB_STRENGTH / d) with (- (ORB_STRENGTH / d))
        by (field; lra).
      split; lra.
  - intros Hd. pose proof (orbForce_out_of_range p this orb Hd) as Hf.
    split; [exact Hf |].
    unfold Boid.applyOrbForces, Boid.applyOrbForces_body.
    cbn [fold_left]. now rewrite Hf.
  - intros orbs. apply applyOrbForces_sum.
Qed.

Lemma dist_same_row (a b c : R) :
  Vector.dist (Vector.mk a c) (Vector.mk b c) = Rabs (a - b).
Proof.
  unfold Vector.dist, pow2. cbn [Vector.x Vector.y]. rnum.
  replace ((a - b) * (a - b) + (c - c) * (c - c)) with (Rsqr (a - b))
    by (unfold Rsqr; ring).
  apply sqrt_Rsqr_abs.
Qed.

Lemma orb_force_law_witness :
  let this := boid_at 0 0 0 0 0 in
  let orb := orb_at 2 0 attractor in
  let d := Vector.dist (Boid.position this) (Orb.position orb) in
  1 < d < PERCEPTION_RADIUS default_params * 2
  /\ Boid.orbForce default_params this orb <> None
  /\ 0 < dot (Vector.limit
                (Vector.mult
                   (Vector.normalize
                      (Vector.sub (Orb.position orb) (Boid.position this)))
                   (ORB_STRENGTH / d))
                MAX_FORCE)
             (Vector.sub (Orb.position orb) (Boid.position this)).
Proof.
  intros this orb d.
  assert (Hd : 1 < d < PERCEPTION_RADIUS default_params * 2).
  { subst d this orb. unfold boid_at, orb_at.
    cbn [Boid.position Orb.position PERCEPTION_RADIUS default_params].
    rewrite dist_same_row. replace (0 - 2) with (- (2)) by ring.
    rewrite Rabs_Ropp, Rabs_pos_eq; lra. }
  split; [exact Hd |].
  destruct (orb_force_law default_params this orb) as (H & _ & _).
  destruct (H Hd) as (Hf & _ & _ & _ & Hdot).
  split.
  - rewrite Hf. discriminate.
  - exact (proj2 Hdot).
Defined.

(** C4, with the lower bound included, fails at distance exactly 1: the
    guard of the code is [d > 1], and an attractor one unit away adds no
    force. *)
Lemma orb_at_distance_one_exerts_nothing :
  let this := boid_at 0 0 0 0 0 in
  let orb := orb_at 1 0 attractor in
  let d := Vector.dist (Boid.position this) (Orb.position orb) in
  d = 1
  /\ 1 <= d < PERCEPTION_RADIUS default_params * 2
  /\ Boid.orbForce default_params this orb = None
  /\ Boid.applyOrbForces default_params this [orb] = this.
Proof.
  intros this orb d.
  assert (Hd : d = 1).
  { subst d this orb. unfold boid_at, orb_at.
    cbn [Boid.position Orb.position].
    rewrite dist_same_row. replace (0 - 1) with (- (1)) by ring.
    rewrite Rabs_Ropp, Rabs_pos_eq; lra. }
  split; [exact Hd |]. split; [rewrite Hd; cbn; lra |].
  assert (Hf : Boid.orbForce default_params this orb = None)
    by (apply orbForce_out_of_range; fold d; lra).
  split; [exact Hf |].
  unfold Boid.applyOrbForces, Boid.applyOrbForces_body.
  cbn [fold_left]. now rewrite Hf.
Qed.

(** * Separation against its specification *)

Lemma vec_eq (a b c d : R) : a = c -> b = d -> Vector.mk a b = Vector.mk c d.
Proof. now intros -> ->. Qed.

Lemma spec_magnitude (v : Vector R) : Spec.magnitude v = Vector.mag v.
Proof. unfold Spec.magnitude, Vector.mag. rnum. f_equal. ring. Qed.

Lemma spec_distance (a b : Vector R) : Spec.distance a b = Vector.dist a b.
Proof.
  unfold Spec.distance, Spec.magnitude, Spec.minus, Vector.dist, pow2.
  cbn [Vector.x Vector.y]. rnum. f_equal. ring.
Qed.

Lemma spec_normalize (v : Vector R) : Spec.normalize v = Vector.normalize v.
Proof.
  unfold Spec.normalize. rewrite spec_magnitude.
  destruct (Req_dec_T (Vector.mag v) 0) as [H | H].
  - now rewrite normalize_zero.
  - pose proof (mag_nonneg v). rewrite normalize_pos by lra.
    unfold Spec.scale, Vector.div. rnum. apply vec_eq; unfold Rdiv; ring.
Qed.

Lemma spec_withMagnitude (m : R) (v : Vector R) :
  Spec.withMagnitude m v = Vector.setMag v m.
Proof.
  unfold Spec.withMagnitude, Vector.setMag. rewrite spec_normalize.
  unfold Spec.scale, Vector.mult. rnum. apply vec_eq; ring.
Qed.

Lemma spec_clampMagnitude (max : R) (v : Vector R) :
  Spec.clampMagnitude max v = Vector.limit v max.
Proof.
  unfold Spec.clampMagnitude. rewrite spec_magnitude, spec_withMagnitude.
  destruct (Rlt_dec max (Vector.mag v)) as [H | H].
  - now rewrite limit_over.
  - rewrite limit_under; [reflexivity | lra].
Qed.

Lemma spec_plus_assoc (a b c : Vector R) :
  Spec.plus (Spec.plus a b) c = Spec.plus a (Spec.plus b c).
Proof. unfold Spec.plus. cbn [Vector.x Vector.y]. apply vec_eq; ring. Qed.

Lemma spec_plus_zero_l (a : Vector R) : Spec.plus Spec.zero a = a.
Proof.
  destruct a. unfold Spec.plus, Spec.zero. cbn [Vector.x Vector.y].
  apply vec_eq; ring.
Qed.

Lemma separation_loop_spec (this : Boid R) (ds : R) (boids : list (Boid R))
    (steering : Vector R) (total : R) :
  let near := Spec.neighbours this ds boids in
  fold_left (Boid.separation_body this ds) boids (steering, total)
  = (Spec.plus steering
       (Spec.sum
          (map (fun other =>
                  Spec.scale
                    (/ Spec.distance (Boid.position this)
                                     (Boid.position other) ^ 2)
                    (Spec.minus (Boid.position this) (Boid.position other)))
               near)),
     total + INR (List.length near)).
Proof.
  induction boids as [| other rest IH] in steering, total |- *; intros near.
  - subst near. cbn. f_equal; [| ring].
    destruct steering. unfold Spec.plus, Spec.zero. cbn [Vector.x Vector.y].
    apply vec_eq; ring.
  - subst near. cbn [fold_left Spec.neighbours filter].
    unfold Boid.separation_body at 2. unfold Boid.differs. rnum.
    rewrite <- spec_distance.
    destruct (negb (Nat.eqb (Boid.oid other) (Boid.oid this))); cbn [andb];
      [| apply IH].
    destruct (Rltb _ ds); [| apply IH].
    rewrite IH. cbn [map Spec.sum fold_right List.length].
    fold (Spec.neighbours this ds rest). rewrite S_INR.
    f_equal; [| ring].
    rewrite <- spec_plus_assoc. f_equal.
    rewrite copy_R.
    set (d := Spec.distance _ _).
    unfold Spec.plus, Spec.scale, Spec.minus, Vector.add, Vector.div, Vector.sub.
    cbn [Vector.x Vector.y]. rnum.
    replace (d ^ 2) with (d * d) by ring.
    apply vec_eq; unfold Rdiv; ring.
Qed.

Lemma count_positive (n : nat) : Rltb 0 (0 + INR n) = Nat.ltb 0 n.
Proof.
  destruct n as [| n].
  - cbn. rewrite Rplus_0_r. apply Rltb_false. lra.
  - cbn [Nat.ltb Nat.leb]. apply Rltb_true.
    pose proof (pos_INR n). rewrite S_INR. lra.
Qed.

Lemma separation_eq_spec (this : Boid R) (boids : list (Boid R)) :
  Boid.separation this boids = Spec.separation_spec this boids.
Proof.
  unfold Boid.separation, Spec.separation_spec. rnum.
  rewrite separation_loop_spec. rewrite count_positive.
  rewrite new_R. fold Spec.zero. rewrite spec_plus_zero_l.
  destruct (Nat.ltb 0 _) eqn:Hn.
  - unfold Boid.steer.
    rewrite spec_clampMagnitude, spec_withMagnitude.
    rewrite MAX_FORCE_R, MAX_SPEED_R.
    replace (5 / 10) with (1 / 2) by lra.
    set (acc := Spec.sum _). set (n := INR _).
    replace (Spec.scale (/ n) acc) with (Vector.div acc (0 + n));
      [reflexivity |].
    unfold Spec.scale, Vector.div. rnum. rewrite Rplus_0_l.
    apply vec_eq; unfold Rdiv; ring.
  - apply Nat.ltb_ge in Hn.
    destruct (Spec.neighbours _ _ _); [reflexivity | cbn in Hn; lia].
Qed.

Lemma separation_two_at_unit_distance (a b : Boid R) :
  Boid.oid a <> Boid.oid b ->
  Boid.size a = 2 ->
  Boid.velocity a = Vector.mk 0 0 ->
  Vector.dist (Boid.position a) (Boid.position b) = 1 ->
  Boid.separation a [a; b]
  = Vector.mult (Vector.sub (Boid.position a) (Boid.position b)) (1 / 2).
Proof.
  intros Hid Hsize Hvel Hd.
  set (diff := Vector.sub (Boid.position a) (Boid.position b)).
  assert (Hmag : Vector.mag diff = 1)
    by (subst diff; now rewrite <- dist_mag_sub, dist_sym).
  unfold Boid.separation. cbn [fold_left].
  unfold Boid.separation_body at 2. unfold Boid.differs.
  rewrite Nat.eqb_refl. cbn [negb].
  unfold Boid.separation_body, Boid.differs.
  replace (Nat.eqb (Boid.oid b) (Boid.oid a)) with false
    by (symmetry; apply Nat.eqb_neq; congruence).
  cbn [negb]. rewrite Hd, Hsize, copy_R, new_R. fold diff. rnum.
  replace (Rltb 1 (2 * 6)) with true by (symmetry; apply Rltb_true; lra).
  replace (Rltb 0 (0 + 1)) with true by (symmetry; apply Rltb_true; lra).
  replace (Vector.div (Vector.add (Vector.mk 0 0) (Vector.div diff (1 * 1)))
                      (0 + 1))
    with diff
    by (destruct diff; unfold Vector.div, Vector.add;
        cbn [Vector.x Vector.y]; rnum; apply vec_eq; field).
  unfold Boid.steer. rewrite Hvel, MAX_SPEED_R, MAX_FORCE_R.
  unfold Vector.setMag at 1. rewrite normalize_pos by lra. rewrite Hmag.
  set (w := Vector.sub _ _).
  assert (Hw : w = Vector.mult diff 5).
  { subst w. destruct diff. unfold Vector.sub, Vector.mult, Vector.div.
    cbn [Vector.x Vector.y]. rnum. apply vec_eq; field. }
  assert (Hmw : Vector.mag w = 5)
    by (rewrite Hw, mag_mult, Hmag; lra).
  rewrite limit_over by lra.
  unfold Vector.setMag. rewrite normalize_pos by lra. rewrite Hmw, Hw.
  unfold Vector.mult, Vector.div. cbn [Vector.x Vector.y]. rnum.
  apply vec_eq; field.
Qed.

(** C3. [separation] computes what the specification says: over the other
    agents closer than [size * 6], the sum of
    [(self.position - other.position) / d^2]; when there is one, the sum
    divided by their number, rescaled to [MAX_SPEED], minus the velocity,
    clamped to [MAX_FORCE]; zero otherwise.  For two agents one unit apart,
    the first of size 2 and at rest, the steering of the first is half
    the vector from the second to the first: non-zero and pointing away
    from the second. *)
Theorem separation_meets_spec :
  (forall (this : Boid R) (boids : list (Boid R)),
      Boid.separation this boids = Spec.separation_spec this boids)
  /\ (forall a b : Boid R,
      Boid.oid a <> Boid.oid b ->
      Boid.size a = 2 ->
      Boid.velocity a = Vector.mk 0 0 ->
      Boid.velocity b = Vector.mk 0 0 ->
      Vector.dist (Boid.position a) (Boid.position b) = 1 ->
      let away := Vector.sub (Boid.position a) (Boid.position b) in
      let steering := Boid.separation a [a; b] in
      steering = Vector.mult away (1 / 2)
      /\ steering <> Vector.mk 0 0
      /\ 0 < dot steering away).
Proof.
  split; [exact separation_eq_spec |].
  intros a b Hid Hsize Hva _ Hd away steering.
  assert (Hs : steering = Vector.mult away (1 / 2))
    by (apply separation_two_at_unit_distance; assumption).
  assert (Hmag : Vector.mag away = 1)
    by (subst away; now rewrite <- dist_mag_sub, dist_sym).
  assert (Hdot : dot steering away = 1 / 2).
  { rewrite Hs, dot_mult_l, dot_self, Hmag. lra. }
  split; [exact Hs |]. split; [| lra].
  intros Hz. rewrite Hz in Hdot. unfold dot in Hdot.
  cbn [Vector.x Vector.y] in Hdot. lra.
Qed.

Lemma separation_meets_spec_witness :
  Boid.separation (boid_at 0 1 0 0 0) [boid_at 0 1 0 0 0; boid_at 1 0 0 0 0]
  = Vector.mult (Vector.sub (Vector.mk 1 0) (Vector.mk 0 0)) (1 / 2).
Proof.
  destruct separation_meets_spec as [_ H].
  apply (H (boid_at 0 1 0 0 0) (boid_at 1 0 0 0 0)); try reflexivity.
  - cbn. lia.
  - unfold boid_at. cbn [Boid.position]. rewrite dist_same_row.
    replace (1 - 0) with 1 by ring. apply Rabs_pos_eq. lra.
Defined.

(** * Special values: exact arithmetic with NaN and the infinities *)

(** Reads the interface operations at the carrier [XR]. *)
Ltac xnum :=
  cbn [num_lit num_add num_sub num_mul num_div num_neg num_sqrt num_lt
       XRNumber] in *.

Lemma xr_div_fin (a s : R) : s <> 0 -> xr_div (Fin a) (Fin s) = Fin (a / s).
Proof.
  intros Hs. unfold xr_div. destruct (Req_dec_T s 0); [contradiction | easy].
Qed.

Lemma xr_div_zero_zero : xr_div (Fin 0) (Fin 0) = NaN.
Proof.
  unfold xr_div. destruct (Req_dec_T 0 0) as [_ | H]; [| now destruct H].
  unfold xr_inf. destruct (Rlt_dec 0 0); [lra | reflexivity].
Qed.

Lemma xr_sqrt_fin (a : R) : 0 <= a -> xr_sqrt (Fin a) = Fin (sqrt a).
Proof.
  intros Ha. unfold xr_sqrt. destruct (Rlt_dec a 0); [lra | reflexivity].
Qed.

Lemma or_zero_fin (a : R) : or_zero (Fin a) = Fin a.
Proof.
  unfold or_zero. xnum. cbn [xr_lt].
  case_lt a 0; cbn [orb]; trivial.
  case_lt 0 a; cbn [orb]; trivial.
  f_equal. lra.
Qed.

Lemma new_fin (a b : R) : Vector.new (Fin a) (Fin b) = vec_fin (Vector.mk a b).
Proof. unfold Vector.new. now rewrite !or_zero_fin. Qed.

Lemma copy_fin (v : Vector R) : Vector.copy (vec_fin v) = vec_fin v.
Proof. destruct v. unfold Vector.copy, vec_fin. cbn. apply new_fin. Qed.

Lemma add_fin (u v : Vector R) :
  Vector.add (vec_fin u) (vec_fin v) = vec_fin (Vector.add u v).
Proof. reflexivity. Qed.

Lemma sub_fin (u v : Vector R) :
  Vector.sub (vec_fin u) (vec_fin v) = vec_fin (Vector.sub u v).
Proof. reflexivity. Qed.

Lemma mult_fin (v : Vector R) (s : R) :
  Vector.mult (vec_fin v) (Fin s) = vec_fin (Vector.mult v s).
Proof. reflexivity. Qed.

Lemma div_fin (v : Vector R) (s : R) :
  s <> 0 -> Vector.div (vec_fin v) (Fin s) = vec_fin (Vector.div v s).
Proof.
  intros Hs. unfold Vector.div, vec_fin. cbn [Vector.x Vector.y]. xnum.
  now rewrite !xr_div_fin.
Qed.

Lemma mag_fin (v : Vector R) : Vector.mag (vec_fin v) = Fin (Vector.mag v).
Proof.
  unfold Vector.mag, vec_fin. cbn [Vector.x Vector.y]. xnum.
  cbn [xr_mul xr_add]. apply xr_sqrt_fin, sumsq_nonneg.
Qed.

Lemma dist_fin (u v : Vector R) :
  Vector.dist (vec_fin u) (vec_fin v) = Fin (Vector.dist u v).
Proof.
  unfold Vector.dist, pow2, vec_fin. cbn [Vector.x Vector.y]. xnum.
  cbn [xr_sub xr_neg xr_add xr_mul]. apply xr_sqrt_fin, sumsq_nonneg.
Qed.

Lemma normalize_fin (v : Vector R) :
  Vector.normalize (vec_fin v) = vec_fin (Vector.normalize v).
Proof.
  unfold Vector.normalize. rewrite mag_fin. xnum. cbn [xr_lt]. rnum.
  case_lt 0 (Vector.mag v); [| reflexivity].
  apply div_fin. lra.
Qed.

Lemma setMag_fin (v : Vector R) (m : R) :
  Vector.setMag (vec_fin v) (Fin m) = vec_fin (Vector.setMag v m).
Proof. unfold Vector.setMag. now rewrite normalize_fin, mult_fin. Qed.

Lemma limit_fin (v : Vector R) (max : R) :
  Vector.limit (vec_fin v) (Fin max) = vec_fin (Vector.limit v max).
Proof.
  unfold Vector.limit. rewrite mag_fin. xnum. cbn [xr_lt]. rnum.
  destruct (Rltb max (Vector.mag v)); [apply setMag_fin | reflexivity].
Qed.

Lemma MAX_SPEED_XR : @MAX_SPEED XR _ = Fin MAX_SPEED.
Proof. reflexivity. Qed.

Lemma MAX_FORCE_XR : @MAX_FORCE XR _ = Fin MAX_FORCE.
Proof.
  unfold MAX_FORCE. xnum. rnum. apply xr_div_fin. lra.
Qed.

Lemma steer_fin (this : Boid R) (s : Vector R) :
  Boid.steer (boid_fin this) (vec_fin s) = vec_fin (Boid.steer this s).
Proof.
  unfold Boid.steer. rewrite MAX_SPEED_XR, MAX_FORCE_XR.
  cbn [boid_fin Boid.velocity].
  now rewrite setMag_fin, sub_fin, limit_fin.
Qed.

Lemma separation_body_fin (this other : Boid R) (ds : R) (st : Vector R * R) :
  (Boid.oid other <> Boid.oid this ->
   Vector.dist (Boid.position this) (Boid.position other) < ds ->
   0 < Vector.dist (Boid.position this) (Boid.position other)) ->
  Boid.separation_body (boid_fin this) (Fin ds) (state_fin st) (boid_fin other)
  = state_fin (Boid.separation_body this ds st other).
Proof.
  intros Hpos. destruct st as [s t].
  unfold Boid.separation_body, state_fin, Boid.differs.
  cbn [fst snd boid_fin Boid.oid Boid.position].
  destruct (Nat.eqb (Boid.oid other) (Boid.oid this)) eqn:Hid; cbn [negb];
    [reflexivity |].
  apply Nat.eqb_neq in Hid.
  rewrite dist_fin. xnum. cbn [xr_lt xr_mul xr_add]. rnum.
  case_lt (Vector.dist (Boid.position this) (Boid.position other)) ds;
    [| reflexivity].
  specialize (Hpos Hid Hlt).
  rewrite copy_fin, copy_R, sub_fin, div_fin, add_fin by nra.
  reflexivity.
Qed.

Lemma separation_loop_fin (this : Boid R) (ds : R) (boids : list (Boid R))
    (st : Vector R * R) :
  (forall other, In other boids ->
     Boid.oid other <> Boid.oid this ->
     Vector.dist (Boid.position this) (Boid.position other) < ds ->
     0 < Vector.dist (Boid.position this) (Boid.position other)) ->
  fold_left (Boid.separation_body (boid_fin this) (Fin ds))
            (map boid_fin boids) (state_fin st)
  = state_fin (fold_left (Boid.separation_body this ds) boids st).
Proof.
  induction boids as [| other rest IH] in st |- *; intros Hpos;
    [reflexivity |].
  cbn [map fold_left].
  rewrite separation_body_fin by (apply Hpos; now left).
  apply IH. intros o Ho. apply Hpos. now right.
Qed.

Lemma separation_fin (this : Boid R) (boids : list (Boid R)) :
  apart this boids ->
  Boid.separation (boid_fin this) (map boid_fin boids)
  = vec_fin (Boid.separation this boids).
Proof.
  intros Hapart. unfold Boid.separation.
  cbn [boid_fin Boid.size]. xnum. cbn [xr_mul]. rnum.
  rewrite new_fin, new_R.
  change (vec_fin (Vector.mk 0 0), Fin 0)
    with (state_fin (Vector.mk 0 0, 0)).
  rewrite separation_loop_fin by exact Hapart.
  destruct (fold_left (Boid.separation_body this _) boids _)
    as [s t] eqn:E.
  unfold state_fin. cbn [fst snd xr_lt].
  case_lt 0 t; [| reflexivity].
  rewrite div_fin by lra. apply steer_fin.
Qed.

Lemma dist_self (v : Vector R) : Vector.dist v v = 0.
Proof.
  unfold Vector.dist, pow2. rnum.
  replace ((Vector.x v - Vector.x v) * (Vector.x v - Vector.x v)
           + (Vector.y v - Vector.y v) * (Vector.y v - Vector.y v))
    with 0 by ring.
  apply sqrt_0.
Qed.

Lemma steer_NaN (this : Boid XR) :
  Boid.steer this (Vector.mk NaN NaN) = Vector.mk NaN NaN.
Proof.
  unfold Boid.steer. rewrite MAX_FORCE_XR, MAX_SPEED_XR.
  assert (Hn : Vector.normalize (Vector.mk NaN NaN) = Vector.mk NaN NaN)
    by reflexivity.
  unfold Vector.setMag. rewrite Hn.
  unfold Vector.mult, Vector.sub. cbn [Vector.x Vector.y]. xnum.
  cbn [xr_mul xr_sub xr_add]. reflexivity.
Qed.

Lemma separation_coincident (a b : Boid R) :
  Boid.oid b <> Boid.oid a ->
  Boid.position b = Boid.position a ->
  0 < Boid.size a ->
  Boid.separation (boid_fin a) [boid_fin a; boid_fin b]
  = Vector.mk NaN NaN.
Proof.
  intros Hid Hpos Hsize. unfold Boid.separation. cbn [fold_left].
  unfold Boid.separation_body at 2. unfold Boid.differs.
  rewrite Nat.eqb_refl. cbn [negb].
  unfold Boid.separation_body, Boid.differs.
  cbn [boid_fin Boid.oid Boid.position Boid.size].
  replace (Nat.eqb (Boid.oid b) (Boid.oid a)) with false
    by (symmetry; now apply Nat.eqb_neq).
  cbn [negb]. xnum.
  rewrite Hpos, dist_fin, dist_self, copy_fin, sub_fin, new_fin.
  cbn [xr_mul xr_lt xr_add].
  replace (Rltb 0 (Boid.size a * 6)) with true
    by (symmetry; apply Rltb_true; lra).
  replace (Rltb 0 (0 + 1)) with true by (symmetry; apply Rltb_true; lra).
  unfold Vector.div at 2, Vector.sub, vec_fin.
  cbn [Vector.x Vector.y]. xnum. rnum.
  replace (Vector.x (Boid.position a) - Vector.x (Boid.position a))
    with 0 by ring.
  replace (Vector.y (Boid.position a) - Vector.y (Boid.position a))
    with 0 by ring.
  replace (0 * 0) with 0 by ring. rewrite xr_div_zero_zero.
  unfold Vector.add, Vector.div. cbn [Vector.x Vector.y]. xnum.
  cbn [xr_add xr_div]. apply steer_NaN.
Qed.

(** * The alignment and cohesion scans *)

Lemma alignment_body_fin (radius : R) (this other : Boid R)
    (st : Vector R * R) :
  Boid.alignment_body (Fin radius) (boid_fin this) (state_fin st)
                      (boid_fin other)
  = state_fin (Boid.alignment_body radius this st other).
Proof.
  destruct st as [s t]. unfold Boid.alignment_body, state_fin, Boid.differs.
  cbn [fst snd boid_fin Boid.oid Boid.position Boid.velocity].
  rewrite dist_fin. xnum. cbn [xr_lt]. rnum.
  destruct (negb _ && Rltb _ radius); reflexivity.
Qed.

Lemma cohesion_body_fin (radius : R) (this other : Boid R)
    (st : Vector R * R) :
  Boid.cohesion_body (Fin radius) (boid_fin this) (state_fin st)
                     (boid_fin other)
  = state_fin (Boid.cohesion_body radius this st other).
Proof.
  destruct st as [s t]. unfold Boid.cohesion_body, state_fin, Boid.differs.
  cbn [fst snd boid_fin Boid.oid Boid.position Boid.velocity].
  rewrite dist_fin. xnum. cbn [xr_lt]. rnum.
  destruct (negb _ && Rltb _ radius); reflexivity.
Qed.

Lemma fold_left_fin (f : Vector R * R -> Boid R -> Vector R * R)
    (g : Vector XR * XR -> Boid XR -> Vector XR * XR) :
  (forall st other, g (state_fin st) (boid_fin other) = state_fin (f st other)) ->
  forall boids st,
    fold_left g (map boid_fin boids) (state_fin st)
    = state_fin (fold_left f boids st).
Proof.
  intros Hstep boids. induction boids as [| other rest IH]; intros st;
    [reflexivity |].
  cbn [map fold_left]. now rewrite Hstep, IH.
Qed.

Lemma alignment_fin (p : Params R) (this : Boid R) (boids : list (Boid R)) :
  Boid.alignment (params_fin p) (boid_fin this) (map boid_fin boids)
  = vec_fin (Boid.alignment p this boids).
Proof.
  unfold Boid.alignment. cbn [params_fin PERCEPTION_RADIUS]. xnum. rnum.
  rewrite new_fin, new_R.
  change (vec_fin (Vector.mk 0 0), Fin 0) with (state_fin (Vector.mk 0 0, 0)).
  rewrite (fold_left_fin (Boid.alignment_body (PERCEPTION_RADIUS p) this))
    by (intros; apply alignment_body_fin).
  destruct (fold_left _ boids _) as [s t].
  unfold state_fin. cbn [fst snd xr_lt].
  case_lt 0 t; [| reflexivity].
  rewrite div_fin by lra. apply steer_fin.
Qed.

Lemma cohesion_fin (p : Params R) (this : Boid R) (boids : list (Boid R)) :
  Boid.cohesion (params_fin p) (boid_fin this) (map boid_fin boids)
  = vec_fin (Boid.cohesion p this boids).
Proof.
  unfold Boid.cohesion. cbn [params_fin PERCEPTION_RADIUS]. xnum. rnum.
  rewrite new_fin, new_R.
  change (vec_fin (Vector.mk 0 0), Fin 0) with (state_fin (Vector.mk 0 0, 0)).
  rewrite (fold_left_fin (Boid.cohesion_body (PERCEPTION_RADIUS p) this))
    by (intros; apply cohesion_body_fin).
  destruct (fold_left _ boids _) as [s t].
  unfold state_fin. cbn [fst snd xr_lt].
  case_lt 0 t; [| reflexivity].
  rewrite div_fin by lra.
  change (Boid.position (boid_fin this)) with (vec_fin (Boid.position this)).
  rewrite sub_fin. apply steer_fin.
Qed.

(** * The three rules in exact arithmetic: force cap and empty scans *)

Section Scan.
Variable body : Vector R * R -> Boid R -> Vector R * R.
Variable test : Boid R -> bool.
Hypothesis body_skip : forall st other, test other = false -> body st other = st.
Hypothesis body_count :
  forall st other, test other = true -> snd (body st other) = snd st + 1.

Lemma scan_none (boids : list (Boid R)) (st : Vector R * R) :
  (forall other, In other boids -> test other = false) ->
  fold_left body boids st = st.
Proof.
  induction boids as [| other rest IH] in st |- *; intros Hnone;
    [reflexivity |].
  cbn [fold_left]. rewrite body_skip by (apply Hnone; now left).
  apply IH. intros o Ho. apply Hnone. now right.
Qed.

Lemma scan_total_mono (boids : list (Boid R)) (st : Vector R * R) :
  snd st <= snd (fold_left body boids st).
Proof.
  induction boids as [| other rest IH] in st |- *; [apply Rle_refl |].
  cbn [fold_left]. eapply Rle_trans; [| apply IH].
  destruct (test other) eqn:E.
  - rewrite body_count by assumption. lra.
  - rewrite body_skip by assumption. apply Rle_refl.
Qed.

Lemma scan_some (boids : list (Boid R)) (st : Vector R * R) :
  (exists other, In other boids /\ test other = true) ->
  snd st < snd (fold_left body boids st).
Proof.
  induction boids as [| other rest IH] in st |- *;
    intros (o & Ho & Ht); [destruct Ho |].
  cbn [fold_left]. destruct (test other) eqn:E.
  - eapply Rlt_le_trans; [| apply scan_total_mono].
    rewrite body_count by assumption. lra.
  - rewrite body_skip by assumption. apply IH.
    destruct Ho as [-> | Ho]; [congruence |]. now exists o.
Qed.
End Scan.

Lemma steer_bounded (this : Boid R) (s : Vector R) :
  Vector.mag (Boid.steer this s) <= MAX_FORCE.
Proof. unfold Boid.steer. apply mag_limit. rewrite MAX_FORCE_R. lra. Qed.

Lemma separation_body_skip (this : Boid R) (ds : R) st other :
  in_range this ds other = false ->
  Boid.separation_body this ds st other = st.
Proof.
  unfold in_range, Boid.separation_body. destruct st as [s t]. rnum.
  destruct (Boid.differs other this); cbn [andb]; [| reflexivity].
  now intros ->.
Qed.

Lemma separation_body_count (this : Boid R) (ds : R) st other :
  in_range this ds other = true ->
  snd (Boid.separation_body this ds st other) = snd st + 1.
Proof.
  unfold in_range, Boid.separation_body. destruct st as [s t]. rnum.
  destruct (Boid.differs other this); cbn [andb]; [| discriminate].
  now intros ->.
Qed.

Lemma alignment_body_skip (this : Boid R) (r : R) st other :
  in_range this r other = false ->
  Boid.alignment_body r this st other = st.
Proof.
  unfold in_range, Boid.alignment_body. destruct st as [s t]. rnum.
  now intros ->.
Qed.

Lemma alignment_body_count (this : Boid R) (r : R) st other :
  in_range this r other = true ->
  snd (Boid.alignment_body r this st other) = snd st + 1.
Proof.
  unfold in_range, Boid.alignment_body. destruct st as [s t]. rnum.
  now intros ->.
Qed.

Lemma cohesion_body_skip (this : Boid R) (r : R) st other :
  in_range this r other = false ->
  Boid.cohesion_body r this st other = st.
Proof.
  unfold in_range, Boid.cohesion_body. destruct st as [s t]. rnum.
  now intros ->.
Qed.

Lemma cohesion_body_count (this : Boid R) (r : R) st other :
  in_range this r other = true ->
  snd (Boid.cohesion_body r this st other) = snd st + 1.
Proof.
  unfold in_range, Boid.cohesion_body. destruct st as [s t]. rnum.
  now intros ->.
Qed.

(** In exact arithmetic each rule returns the zero vector when its scan
    finds nobody, and a vector of magnitude at most [MAX_FORCE] when it
    finds somebody. *)
Lemma rules_exact (p : Params R) (this : Boid R) (boids : list (Boid R)) :
  let nobody range :=
    forall other, In other boids -> in_range this range other = false in
  let somebody range :=
    exists other, In other boids /\ in_range this range other = true in
  (nobody (Boid.size this * 6) -> Boid.separation this boids = Vector.mk 0 0)
  /\ (nobody (PERCEPTION_RADIUS p) ->
      Boid.alignment p this boids = Vector.mk 0 0)
  /\ (nobody (PERCEPTION_RADIUS p) ->
      Boid.cohesion p this boids = Vector.mk 0 0)
  /\ (somebody (Boid.size this * 6) ->
      Vector.mag (Boid.separation this boids) <= MAX_FORCE)
  /\ (somebody (PERCEPTION_RADIUS p) ->
      Vector.mag (Boid.alignment p this boids) <= MAX_FORCE)
  /\ (somebody (PERCEPTION_RADIUS p) ->
      Vector.mag (Boid.cohesion p this boids) <= MAX_FORCE).
Proof.
  intros nobody somebody.
  assert (Hz : Rltb 0 0 = false) by (apply Rltb_false; lra).
  repeat split; intros H.
  - unfold Boid.separation. rnum.
    rewrite (scan_none _ (in_range this (Boid.size this * 6)))
      by (trivial; intros; now apply separation_body_skip).
    rewrite Hz. apply new_R.
  - unfold Boid.alignment. rnum.
    rewrite (scan_none _ (in_range this (PERCEPTION_RADIUS p)))
      by (trivial; intros; now apply alignment_body_skip).
    rewrite Hz. apply new_R.
  - unfold Boid.cohesion. rnum.
    rewrite (scan_none _ (in_range this (PERCEPTION_RADIUS p)))
      by (trivial; intros; now apply cohesion_body_skip).
    rewrite Hz. apply new_R.
  - unfold Boid.separation. rnum.
    pose proof (@scan_some (Boid.separation_body this (Boid.size this * 6))
                  (in_range this (Boid.size this * 6))
                  (fun st o => @separation_body_skip this _ st o)
                  (fun st o => @separation_body_count this _ st o)
                  boids (Vector.new 0 0, 0) H) as Ht.
    destruct (fold_left _ boids _) as [s t]. cbn [snd] in Ht.
    apply Rltb_true in Ht. rewrite Ht. apply steer_bounded.
  - unfold Boid.alignment. rnum.
    pose proof (@scan_some (Boid.alignment_body (PERCEPTION_RADIUS p) this)
                  (in_range this (PERCEPTION_RADIUS p))
                  (fun st o => @alignment_body_skip this _ st o)
                  (fun st o => @alignment_body_count this _ st o)
                  boids (Vector.new 0 0, 0) H) as Ht.
    destruct (fold_left _ boids _) as [s t]. cbn [snd] in Ht.
    apply Rltb_true in Ht. rewrite Ht. apply steer_bounded.
  - unfold Boid.cohesion. rnum.
    pose proof (@scan_some (Boid.cohesion_body (PERCEPTION_RADIUS p) this)
                  (in_range this (PERCEPTION_RADIUS p))
                  (fun st o => @cohesion_body_skip this _ st o)
                  (fun st o => @cohesion_body_count this _ st o)
                  boids (Vector.new 0 0, 0) H) as Ht.
    destruct (fold_left _ boids _) as [s t]. cbn [snd] in Ht.
    apply Rltb_true in Ht. rewrite Ht. apply steer_bounded.
Qed.

(** C2, on the program's own numbers.  A second agent at the very position
    of the first is in separation range, the unguarded division by the
    squared distance is 0 / 0, and the steering comes back as
    [(NaN, NaN)]: its magnitude is not at most [MAX_FORCE]. *)
Theorem separation_of_coincident_agents :
  let a := float_boid 0 3 4 0 0 in
  let b := float_boid 1 3 4 0 0 in
  Boid.differs b a = true
  /\ PrimFloat.ltb (Vector.dist (Boid.position a) (Boid.position b))
                   (PrimFloat.mul (Boid.size a) (num_lit 6)) = true
  /\ Boid.separation a [a; b] = Vector.mk PrimFloat.nan PrimFloat.nan
  /\ PrimFloat.leb (Vector.mag (Boid.separation a [a; b])) MAX_FORCE = false.
Proof. vm_compute. repeat split. Qed.


(** * The frame loop updates in place *)

Section InPlace.
Context {T : Type} {N : Number T}.
Variables (p : Params T) (canvas : Canvas T) (orbs : list (Orb T)).

Lemma animate_loop_prefix (todo done : list (Boid T)) :
  exists rest, animate_loop p canvas orbs done todo = done ++ rest
               /\ List.length rest = List.length todo.
Proof.
  induction todo as [| b todo IH] in done |- *; cbn.
  - exists []. now rewrite app_nil_r.
  - destruct (IH (done ++ [frame_step p canvas orbs b (done ++ b :: todo)]))
      as (rest & -> & Hlen).
    rewrite <- app_assoc. eexists. split; [reflexivity |]. cbn. now f_equal.
Qed.

Lemma firstn_animate_loop (todo done : list (Boid T)) :
  firstn (List.length done) (animate_loop p canvas orbs done todo) = done.
Proof.
  destruct (animate_loop_prefix todo done) as (rest & -> & _).
  rewrite firstn_app, Nat.sub_diag, firstn_all. cbn. apply app_nil_r.
Qed.

Lemma animate_length (boids : list (Boid T)) :
  List.length (animate p canvas orbs boids) = List.length boids.
Proof.
  unfold animate. destruct (animate_loop_prefix boids []) as (rest & -> & H).
  exact H.
Qed.

Lemma scans_loop_nth (todo done : list (Boid T)) (i : nat) :
  (i < List.length todo)%nat ->
  nth_error (scans_loop p canvas orbs done todo) i
  = Some (firstn (List.length done + i) (animate_loop p canvas orbs done todo)
          ++ skipn i todo).
Proof.
  induction todo as [| b todo IH] in done, i |- *; intros Hi;
    [cbn in Hi; lia |].
  destruct i as [| i].
  - cbn [scans_loop nth_error skipn]. rewrite Nat.add_0_r.
    now rewrite firstn_animate_loop.
  - cbn [scans_loop nth_error skipn animate_loop].
    rewrite IH by (cbn in Hi; lia). do 3 f_equal.
    rewrite length_app. cbn. lia.
Qed.

Lemma animate_loop_nth (todo done : list (Boid T)) (i : nat) (b : Boid T) :
  nth_error todo i = Some b ->
  nth_error (animate_loop p canvas orbs done todo) (List.length done + i)
  = Some (frame_step p canvas orbs b
            (firstn (List.length done + i)
                    (animate_loop p canvas orbs done todo)
             ++ skipn i todo)).
Proof.
  induction todo as [| b0 todo IH] in done, i |- *; intros Hb;
    [destruct i; discriminate |].
  destruct i as [| i].
  - cbn in Hb. injection Hb as ->.
    rewrite Nat.add_0_r, firstn_animate_loop. cbn [skipn animate_loop].
    destruct (animate_loop_prefix todo
                (done ++ [frame_step p canvas orbs b (done ++ b :: todo)]))
      as (rest & -> & _).
    rewrite <- app_assoc. rewrite nth_error_app2 by lia.
    now rewrite Nat.sub_diag.
  - cbn [nth_error] in Hb. cbn [animate_loop skipn].
    specialize (IH (done ++ [frame_step p canvas orbs b0 (done ++ b0 :: todo)])
                   i Hb).
    rewrite length_app in IH. cbn [List.length] in IH.
    replace (List.length done + S i)%nat with (List.length done + 1 + i)%nat
      by lia.
    exact IH.
Qed.
End InPlace.

(** C5 (amended).  The population is updated in place during a frame: the
    scan of the agent in slot [i] receives the array whose first [i] slots
    already hold their end-of-frame state and whose other slots hold their
    start-of-frame state, and the agent's new state is computed against
    that array. *)
Theorem scans_see_updated_prefix {T : Type} {N : Number T}
    (p : Params T) (canvas : Canvas T) (orbs : list (Orb T))
    (boids : list (Boid T)) (i : nat) (boid : Boid T) :
  nth_error boids i = Some boid ->
  let view := firstn i (animate p canvas orbs boids) ++ skipn i boids in
  nth_error (scans p canvas orbs boids) i = Some view
  /\ nth_error (animate p canvas orbs boids) i
     = Some (frame_step p canvas orbs boid view)
  /\ List.length (animate p canvas orbs boids) = List.length boids.
Proof.
  intros Hb view. split; [| split].
  - apply (scans_loop_nth p canvas orbs boids []).
    apply nth_error_Some. congruence.
  - apply (animate_loop_nth p canvas orbs boids [] i Hb).
  - apply animate_length.
Qed.

Lemma scans_see_updated_prefix_witness :
  let boids := [float_boid 0 10 10 1 0; float_boid 1 30 10 0 1] in
  nth_error (scans float_params float_canvas [] boids) 1
  = Some (firstn 1 (animate float_params float_canvas [] boids)
          ++ skipn 1 boids).
Proof.
  intros boids.
  apply (@scans_see_updated_prefix _ _ float_params float_canvas [] boids 1
           (float_boid 1 30 10 0 1)).
  reflexivity.
Defined.

(** C5, as stated, fails: with two agents 20 units apart, the scan of the
    second receives the first already moved, and the frame differs from
    the one computed against the start-of-frame array. *)
Lemma frame_is_not_a_snapshot :
  let boids := [float_boid 0 10 10 1 0; float_boid 1 30 10 0 1] in
  nth_error (scans float_params float_canvas [] boids) 1 <> Some boids
  /\ animate float_params float_canvas [] boids
     <> animate_snapshot float_params float_canvas [] boids.
Proof.
  intros boids. split; intros H.
  - apply (f_equal (fun o => match o with
                             | Some (b :: _) =>
                                 PrimFloat.eqb (Vector.x (Boid.position b))
                                               (num_lit 10)
                             | _ => false
                             end)) in H.
    vm_compute in H. discriminate.
  - apply (f_equal (fun l => match l with
                             | [_; b] =>
                                 PrimFloat.eqb (Vector.x (Boid.velocity b))
                                               (num_lit 0)
                             | _ => false
                             end)) in H.
    vm_compute in H. discriminate.
Qed.

(** * The speed cap and the reset of the acceleration in a run *)

(** C1, on the program's own numbers.  Two agents within the speed cap
    leave the canvas by its corner in the same frame and are both wrapped
    to (0, 0).  In the next frame the separation scan of the first meets
    the second at distance 0 and divides 0 by 0; the accumulated
    acceleration is [(NaN, NaN)], [limit] lets the sum through because
    [NaN > MAX_SPEED] is false, and [update] leaves the velocity at
    [(NaN, NaN)]: the speed is not at most [MAX_SPEED], in this frame and
    in the frames after it. *)
Theorem speed_cap_lost_after_coincidence :
  let within_cap (b : Boid PrimFloat.float) :=
    PrimFloat.leb (Vector.mag (Boid.velocity b)) MAX_SPEED in
  map within_cap corner_pair = [true; true]
  /\ map (@Boid.position _) (float_frames 1 corner_pair)
     = [Vector.mk (num_lit 0) (num_lit 0); Vector.mk (num_lit 0) (num_lit 0)]
  /\ map within_cap (float_frames 1 corner_pair) = [true; true]
  /\ map (@Boid.velocity _) (float_frames 2 corner_pair)
     = [Vector.mk PrimFloat.nan PrimFloat.nan;
        Vector.mk (num_lit 3) (num_lit 3)]
  /\ map within_cap (float_frames 2 corner_pair) = [false; true]
  /\ map within_cap (float_frames 3 corner_pair) = [false; true].
Proof. vm_compute. repeat split. Qed.

(** C8, on the program's own numbers.  In the same run the first frame
    ends with every acceleration at zero; in the second the separation
    scan of the first agent makes its acceleration [(NaN, NaN)], and
    [update] resets by [mult(0)]: NaN * 0 is NaN, so the acceleration is
    [(NaN, NaN)] at the end of the cycle and of every later one, instead
    of the zero vector. *)
Theorem acceleration_not_reset_after_coincidence :
  let nan := Vector.mk PrimFloat.nan PrimFloat.nan in
  let zero := Vector.mk (num_lit 0) (num_lit 0) in
  let first := nth 0 (float_frames 1 corner_pair)
                   (float_agent 0 zero zero) in
  let scanned := Boid.flock float_params first (float_frames 1 corner_pair) in
  map (@Boid.acceleration _) (float_frames 1 corner_pair) = [zero; zero]
  /\ Boid.acceleration scanned = nan
  /\ Boid.acceleration (Boid.update scanned) = nan
  /\ map (@Boid.acceleration _) (float_frames 2 corner_pair) = [nan; zero]
  /\ map (@Boid.acceleration _) (float_frames 3 corner_pair) = [nan; zero].
Proof. vm_compute. repeat split. Qed.

(** * Sample runs on binary64

    The same definitions evaluated on the numbers the program runs on. *)

(** Rounding: clamping (8, 5) to [MAX_SPEED] leaves a speed one unit in the
    last place above 5, which is why the speed cap is exact only in exact
    arithmetic. *)
Example binary64_update_rounds :
  let b := Boid.mk 0 (Vector.mk (num_lit 10) (num_lit 10))
                   (Vector.mk (num_lit 1) (num_lit 2))
                   (Vector.mk (num_lit 7) (num_lit 3)) (num_lit 2)
                   "hsl(0, 70%, 65%)" in
  let speed := Vector.mag (Boid.velocity (Boid.update b)) in
  PrimFloat.ltb MAX_SPEED speed = true
  /\ PrimFloat.ltb speed
       (PrimFloat.add MAX_SPEED
          (PrimFloat.div (num_lit 1) (num_lit 1000000000000))) = true
  /\ Boid.acceleration (Boid.update b) = Vector.mk (num_lit 0) (num_lit 0).
Proof. vm_compute. repeat split. Qed.

Example binary64_separation_unit_distance :
  Boid.separation (float_boid 0 1 0 0 0)
                  [float_boid 0 1 0 0 0; float_boid 1 0 0 0 0]
  = Vector.mk (PrimFloat.div (num_lit 1) (num_lit 2)) (num_lit 0).
Proof. vm_compute. reflexivity. Qed.

Example binary64_orb_range :
  let this := float_boid 0 0 0 0 0 in
  let orb (px py : Z) (type : OrbType) : Orb PrimFloat.float :=
    Orb.mk (Vector.mk (num_lit px) (num_lit py)) ORB_RADIUS type
           "rgba(0, 100, 255, 0.5)" in
  Boid.orbForce float_params this (orb 1%Z 0%Z attractor) = None
  /\ Boid.orbForce float_params this (orb 100%Z 0%Z attractor) = None
  /\ Boid.orbForce float_params this (orb 2%Z 0%Z attractor)
     = Some (Vector.mk MAX_FORCE (num_lit 0))
  /\ Boid.orbForce float_params this (orb 2%Z 0%Z repulsor)
     = Some (Vector.mk (PrimFloat.opp MAX_FORCE) (PrimFloat.opp (num_lit 0))).
Proof. vm_compute. repeat split. Qed.

Example binary64_edges :
  Boid.edges float_canvas true (float_boid 0 801 (-1) 1 2)
  = float_boid 0 0 600 1 2
  /\ Boid.edges float_canvas false (float_boid 0 801 (-1) 1 2)
     = float_boid 0 799 1 (-1) (-2).
Proof. vm_compute. split; reflexivity. Qed.

Example binary64_mouse :
  let rect := Build_ClientRect (num_lit 8) (num_lit 8) in
  let press (b : Z) : MouseEvent PrimFloat.float :=
    {| button := b; clientX := num_lit 108; clientY := num_lit 58;
       defaultPrevented := false |} in
  on_mousedown rect (press 0%Z) []
  = [Orb.mk (Vector.mk (num_lit 100) (num_lit 50)) ORB_RADIUS repulsor
            "rgba(255, 0, 0, 0.5)"]
  /\ on_mousedown rect (press 2%Z) []
     = [Orb.mk (Vector.mk (num_lit 100) (num_lit 50)) ORB_RADIUS attractor
               "rgba(0, 100, 255, 0.5)"]
  /\ on_mousedown rect (press 1%Z) [] = [].
Proof. vm_compute. repeat split. Qed.

(** * Further properties: the vector class *)

Lemma mag_zero_iff (v : Vector R) : Vector.mag v = 0 <-> v = Vector.mk 0 0.
Proof.
  destruct v as [a b]. unfold Vector.mag. cbn [Vector.x Vector.y]. rnum.
  split.
  - intros H. apply sqrt_eq_0 in H; [| apply sumsq_nonneg].
    apply vec_eq; nra.
  - intros H. injection H as -> ->.
    replace (0 * 0 + 0 * 0) with 0 by ring. apply sqrt_0.
Qed.

Lemma mag_mult_abs (v : Vector R) (s : R) :
  Vector.mag (Vector.mult v s) = Vector.mag v * Rabs s.
Proof.
  unfold Vector.mag, Vector.mult. cbn [Vector.x Vector.y]. rnum.
  replace (Vector.x v * s * (Vector.x v * s) + Vector.y v * s * (Vector.y v * s))
    with ((Vector.x v * Vector.x v + Vector.y v * Vector.y v) * Rsqr s)
    by (unfold Rsqr; ring).
  rewrite sqrt_mult by (try apply sumsq_nonneg; apply Rle_0_sqr).
  now rewrite sqrt_Rsqr_abs.
Qed.

Lemma cauchy_schwarz (a b c d p q : R) :
  0 <= p -> 0 <= q -> p * p = a * a + b * b -> q * q = c * c + d * d ->
  a * c + b * d <= p * q.
Proof.
  intros Hp Hq Hpp Hqq.
  assert (Hcs : (a * c + b * d) * (a * c + b * d) <= (p * q) * (p * q)).
  { replace (p * q * (p * q)) with ((p * p) * (q * q)) by ring.
    rewrite Hpp, Hqq. pose proof (Rle_0_sqr (a * d - b * c)) as Hsq.
    unfold Rsqr in Hsq. nra. }
  destruct (Rle_lt_dec (a * c + b * d) (p * q)) as [H | H]; [exact H |].
  assert (0 <= p * q) by (apply Rmult_le_pos; assumption). nra.
Qed.

Lemma mag_triangle (u v : Vector R) :
  Vector.mag (Vector.add u v) <= Vector.mag u + Vector.mag v.
Proof.
  pose proof (mag_nonneg u) as Hu. pose proof (mag_nonneg v) as Hv.
  pose proof (mag_sqr u) as Huu. pose proof (mag_sqr v) as Hvv.
  pose proof (cauchy_schwarz Hu Hv Huu Hvv) as Hcs.
  rewrite <- (sqrt_square (Vector.mag u + Vector.mag v)) by lra.
  unfold Vector.mag at 1. unfold Vector.add. cbn [Vector.x Vector.y]. rnum.
  apply sqrt_le_1_alt. nra.
Qed.

Lemma mag_limit_min (v : Vector R) (max : R) :
  0 <= max -> Vector.mag (Vector.limit v max) = Rmin (Vector.mag v) max.
Proof.
  intros Hmax. destruct (Rlt_le_dec max (Vector.mag v)) as [H | H].
  - rewrite limit_over by assumption. rewrite mag_setMag by lra.
    rewrite Rmin_right; lra.
  - rewrite limit_under by assumption. rewrite Rmin_left; lra.
Qed.

(** X1. [normalize] turns a vector of non-zero magnitude into one of
    magnitude 1 with the same direction, leaves a vector of magnitude 0
    alone, and normalising twice is normalising once. *)
Theorem normalize_unit_or_noop (v : Vector R) :
  (0 < Vector.mag v ->
     Vector.mag (Vector.normalize v) = 1
     /\ Vector.mult (Vector.normalize v) (Vector.mag v) = v)
  /\ (Vector.mag v = 0 -> Vector.normalize v = v /\ v = Vector.mk 0 0)
  /\ Vector.normalize (Vector.normalize v) = Vector.normalize v.
Proof.
  split; [| split].
  - intros H. split; [now apply mag_normalize |].
    rewrite normalize_pos by assumption. destruct v as [a b].
    unfold Vector.mult, Vector.div. cbn [Vector.x Vector.y]. rnum.
    apply vec_eq; field; lra.
  - intros H. split; [now apply normalize_zero | now apply mag_zero_iff].
  - pose proof (mag_nonneg v) as Hv.
    destruct (Req_dec_T (Vector.mag v) 0) as [H | H].
    + rewrite (normalize_zero v H). now apply normalize_zero.
    + assert (H1 : Vector.mag (Vector.normalize v) = 1)
        by (apply mag_normalize; lra).
      rewrite (normalize_pos (Vector.normalize v)) by lra. rewrite H1.
      destruct (Vector.normalize v) as [a b].
      unfold Vector.div. cbn [Vector.x Vector.y]. rnum. apply vec_eq; field.
Qed.

Lemma normalize_unit_or_noop_witness :
  Vector.mag (Vector.normalize (Vector.mk 3 4)) = 1.
Proof.
  apply (normalize_unit_or_noop (Vector.mk 3 4)).
  unfold Vector.mag. cbn [Vector.x Vector.y]. rnum.
  apply sqrt_lt_R0. lra.
Defined.

(** X2. [setMag(m)] gives a vector of non-zero magnitude the magnitude
    [|m|] (a negative [m] reverses it), and leaves the zero vector zero
    whatever [m] is. *)
Theorem setMag_magnitude (v : Vector R) (m : R) :
  (0 < Vector.mag v -> Vector.mag (Vector.setMag v m) = Rabs m)
  /\ Vector.setMag (Vector.mk 0 0) m = Vector.mk 0 0.
Proof.
  split.
  - intros H. unfold Vector.setMag.
    rewrite mag_mult_abs, mag_normalize by assumption. ring.
  - unfold Vector.setMag.
    rewrite normalize_zero by (now apply mag_zero_iff).
    unfold Vector.mult. cbn [Vector.x Vector.y]. rnum. apply vec_eq; ring.
Qed.

Lemma setMag_magnitude_witness :
  Vector.mag (Vector.setMag (Vector.mk 3 4) (- 5)) = Rabs (- 5).
Proof.
  apply (setMag_magnitude (Vector.mk 3 4) (- 5)).
  unfold Vector.mag. cbn [Vector.x Vector.y]. rnum.
  apply sqrt_lt_R0. lra.
Defined.

(** X3. For a non-negative bound, [limit(max)] returns a vector of
    magnitude [min(mag, max)]; it returns its argument unchanged exactly
    when the magnitude is within the bound; limiting twice is limiting
    once; and for a positive bound the result is the argument scaled by a
    factor in (0, 1], so the direction is kept. *)
Theorem limit_clamps (v : Vector R) (max : R) :
  0 <= max ->
  Vector.mag (Vector.limit v max) = Rmin (Vector.mag v) max
  /\ (Vector.limit v max = v <-> Vector.mag v <= max)
  /\ Vector.limit (Vector.limit v max) max = Vector.limit v max
  /\ (0 < max ->
      exists c, 0 < c <= 1 /\ Vector.limit v max = Vector.mult v c).
Proof.
  intros Hmax. pose proof (mag_limit_min v Hmax) as Hmin.
  split; [exact Hmin |]. split; [| split].
  - split.
    + intros H. rewrite H in Hmin.
      destruct (Rle_lt_dec (Vector.mag v) max) as [Hle | Hlt]; [exact Hle |].
      rewrite Rmin_right in Hmin; lra.
    + apply limit_under.
  - apply limit_under. rewrite Hmin. apply Rmin_r.
  - intros Hpos. destruct (Rlt_le_dec max (Vector.mag v)) as [H | H].
    + exists (max / Vector.mag v). split.
      * split; [apply Rdiv_lt_0_compat; lra |].
        assert (Hc : max / Vector.mag v * Vector.mag v = max) by (field; lra).
        apply Rmult_le_reg_r with (Vector.mag v); lra.
      * rewrite limit_over by assumption. unfold Vector.setMag.
        rewrite normalize_pos by lra.
        unfold Vector.mult, Vector.div. cbn [Vector.x Vector.y]. rnum.
        apply vec_eq; field; lra.
    + exists 1. split; [lra |]. rewrite limit_under by assumption.
      destruct v. unfold Vector.mult. cbn [Vector.x Vector.y]. rnum.
      apply vec_eq; ring.
Qed.

Lemma limit_clamps_witness :
  Vector.mag (Vector.limit (Vector.mk 30 40) 5) = Rmin (Vector.mag (Vector.mk 30 40)) 5.
Proof.
  apply (limit_clamps (Vector.mk 30 40) (max := 5)). lra.
Defined.

(** X4. [mag] is a norm: it is non-negative and zero only for the zero
    vector, multiplying a vector by [s] multiplies it by [|s|], and the
    magnitude of a sum is at most the sum of the magnitudes. *)
Theorem mag_is_a_norm :
  (forall v : Vector R, 0 <= Vector.mag v)
  /\ (forall v : Vector R, Vector.mag v = 0 <-> v = Vector.mk 0 0)
  /\ (forall (v : Vector R) (s : R),
       Vector.mag (Vector.mult v s) = Vector.mag v * Rabs s)
  /\ (forall u v : Vector R,
       Vector.mag (Vector.add u v) <= Vector.mag u + Vector.mag v).
Proof.
  split; [exact mag_nonneg |]. split; [exact mag_zero_iff |].
  split; [exact mag_mult_abs | exact mag_triangle].
Qed.

Lemma dist_zero_iff (a b : Vector R) : Vector.dist a b = 0 <-> a = b.
Proof.
  destruct a as [a1 a2], b as [b1 b2]. rewrite dist_mag_sub, mag_zero_iff.
  unfold Vector.sub. cbn [Vector.x Vector.y]. rnum. split.
  - intros H. injection H as H1 H2. apply vec_eq; lra.
  - intros H. injection H as -> ->. apply vec_eq; ring.
Qed.

(** X5. [Vector.dist] is a metric: it is the magnitude of the difference,
    symmetric, zero exactly between equal points, satisfies the triangle
    inequality, and does not change when both points are moved by the
    same vector. *)
Theorem dist_is_a_metric :
  (forall a b : Vector R, Vector.dist a b = Vector.mag (Vector.sub a b))
  /\ (forall a b : Vector R, Vector.dist a b = Vector.dist b a)
  /\ (forall a b : Vector R, Vector.dist a b = 0 <-> a = b)
  /\ (forall a b c : Vector R,
       Vector.dist a c <= Vector.dist a b + Vector.dist b c)
  /\ (forall a b t : Vector R,
       Vector.dist (Vector.add a t) (Vector.add b t) = Vector.dist a b).
Proof.
  split; [| split; [| split; [| split]]].
  - intros a b. rewrite dist_sym. apply dist_mag_sub.
  - exact dist_sym.
  - exact dist_zero_iff.
  - intros a b c. rewrite (dist_mag_sub a c), (dist_mag_sub a b),
      (dist_mag_sub b c).
    replace (Vector.sub c a) with (Vector.add (Vector.sub b a) (Vector.sub c b)).
    + apply mag_triangle.
    + unfold Vector.add, Vector.sub. cbn [Vector.x Vector.y]. rnum.
      apply vec_eq; ring.
  - intros a b t. unfold Vector.dist, Vector.add, pow2.
    cbn [Vector.x Vector.y]. rnum. f_equal. ring.
Qed.

(** X6. The constructor's [x || 0] replaces a [NaN] coordinate by 0 and
    keeps every other number, the infinities included; so [copy] is the
    identity on finite vectors, and the copy of a vector with a [NaN]
    coordinate is not that vector.  On binary64 it also turns [-0] into
    [0]. *)
Theorem copy_replaces_NaN :
  (forall v : Vector XR,
      Vector.copy v
      = Vector.mk match Vector.x v with NaN => Fin 0 | a => a end
                  match Vector.y v with NaN => Fin 0 | a => a end)
  /\ (forall v : Vector R, Vector.copy v = v)
  /\ Vector.copy (Vector.mk PrimFloat.nan (PrimFloat.opp PrimFloat.zero))
     = Vector.mk PrimFloat.zero PrimFloat.zero.
Proof.
  assert (Hoz : forall a : XR,
             or_zero a = match a with NaN => Fin 0 | b => b end).
  { intros [r | | |]; [apply or_zero_fin | | |]; reflexivity. }
  split; [| split].
  - intros [a b]. unfold Vector.copy, Vector.new. cbn [Vector.x Vector.y].
    rewrite !Hoz. destruct a, b; reflexivity.
  - exact copy_R.
  - vm_compute. reflexivity.
Qed.

(** * Further properties: the steering rules *)

Lemma mag_zero_vector : Vector.mag (Vector.mk 0 0) = 0.
Proof. now apply mag_zero_iff. Qed.

Lemma nobody_or_somebody (this : Boid R) (range : R) (boids : list (Boid R)) :
  (forall other, In other boids -> in_range this range other = false)
  \/ (exists other, In other boids /\ in_range this range other = true).
Proof.
  destruct (existsb (in_range this range) boids) eqn:E.
  - right. now apply existsb_exists.
  - left. intros other Hin.
    destruct (in_range this range other) eqn:Ho; [| reflexivity].
    assert (existsb (in_range this range) boids = true)
      by (apply existsb_exists; now exists other).
    congruence.
Qed.

Lemma rules_bounded_exact (p : Params R) (this : Boid R)
    (boids : list (Boid R)) :
  Vector.mag (Boid.separation this boids) <= MAX_FORCE
  /\ Vector.mag (Boid.alignment p this boids) <= MAX_FORCE
  /\ Vector.mag (Boid.cohesion p this boids) <= MAX_FORCE.
Proof.
  destruct (rules_exact p this boids) as (Zs & Za & Zc & Bs & Ba & Bc).
  assert (Hz : Vector.mag (Vector.mk 0 0) <= @MAX_FORCE R _)
    by (rewrite mag_zero_vector, MAX_FORCE_R; lra).
  repeat split.
  - destruct (nobody_or_somebody this (Boid.size this * 6) boids) as [H | H];
      [rewrite (Zs H); exact Hz | exact (Bs H)].
  - destruct (nobody_or_somebody this (PERCEPTION_RADIUS p) boids) as [H | H];
      [rewrite (Za H); exact Hz | exact (Ba H)].
  - destruct (nobody_or_somebody this (PERCEPTION_RADIUS p) boids) as [H | H];
      [rewrite (Zc H); exact Hz | exact (Bc H)].
Qed.

Lemma steer_at_rest (this : Boid R) (s : Vector R) :
  Boid.velocity this = Vector.mk 0 0 ->
  0 < Vector.mag s ->
  Boid.steer this s = Vector.mult s (MAX_FORCE / Vector.mag s).
Proof.
  intros Hvel Hs. unfold Boid.steer. rewrite Hvel, MAX_SPEED_R, MAX_FORCE_R.
  unfold Vector.setMag at 1. rewrite normalize_pos by assumption.
  set (m := Vector.mag s) in *.
  set (w := Vector.sub _ _).
  assert (Hw : w = Vector.mult s (5 / m)).
  { subst w. destruct s. unfold Vector.sub, Vector.mult, Vector.div.
    cbn [Vector.x Vector.y]. rnum. apply vec_eq; field; lra. }
  assert (Hmw : Vector.mag w = 5).
  { rewrite Hw, mag_mult.
    - fold m. field. lra.
    - apply Rlt_le, Rdiv_lt_0_compat; lra. }
  rewrite limit_over by lra.
  unfold Vector.setMag. rewrite normalize_pos by lra. rewrite Hmw, Hw.
  unfold Vector.mult, Vector.div. cbn [Vector.x Vector.y]. rnum.
  apply vec_eq; field; lra.
Qed.

Lemma neighbours_in_range (this : Boid R) (r : R) (boids : list (Boid R)) :
  Spec.neighbours this r boids = filter (in_range this r) boids.
Proof.
  unfold Spec.neighbours. apply filter_ext. intros other.
  unfold in_range, Boid.differs. now rewrite spec_distance.
Qed.

Lemma alignment_loop_sum (this : Boid R) (r : R) (boids : list (Boid R))
    (steering : Vector R) (total : R) :
  let near := filter (in_range this r) boids in
  fold_left (Boid.alignment_body r this) boids (steering, total)
  = (Spec.plus steering (Spec.sum (map (@Boid.velocity _) near)),
     total + INR (List.length near)).
Proof.
  induction boids as [| other rest IH] in steering, total |- *; intros near.
  - subst near. cbn [filter map Spec.sum fold_right List.length INR fold_left].
    rewrite Rplus_0_r. f_equal.
    destruct steering. unfold Spec.plus, Spec.zero. cbn [Vector.x Vector.y].
    apply vec_eq; ring.
  - subst near. cbn [fold_left filter].
    destruct (in_range this r other) eqn:E; unfold in_range in E;
      unfold Boid.alignment_body at 2; rnum; rewrite E; [| apply IH].
    rewrite IH. cbn [map Spec.sum fold_right List.length]. rewrite S_INR.
    apply f_equal2; [| ring].
    now rewrite <- spec_plus_assoc.
Qed.

Lemma cohesion_loop_sum (this : Boid R) (r : R) (boids : list (Boid R))
    (steering : Vector R) (total : R) :
  let near := filter (in_range this r) boids in
  fold_left (Boid.cohesion_body r this) boids (steering, total)
  = (Spec.plus steering (Spec.sum (map (@Boid.position _) near)),
     total + INR (List.length near)).
Proof.
  induction boids as [| other rest IH] in steering, total |- *; intros near.
  - subst near. cbn [filter map Spec.sum fold_right List.length INR fold_left].
    rewrite Rplus_0_r. f_equal.
    destruct steering. unfold Spec.plus, Spec.zero. cbn [Vector.x Vector.y].
    apply vec_eq; ring.
  - subst near. cbn [fold_left filter].
    destruct (in_range this r other) eqn:E; unfold in_range in E;
      unfold Boid.cohesion_body at 2; rnum; rewrite E; [| apply IH].
    rewrite IH. cbn [map Spec.sum fold_right List.length]. rewrite S_INR.
    apply f_equal2; [| ring].
    now rewrite <- spec_plus_assoc.
Qed.

Lemma spec_mean (vs : list (Vector R)) :
  Spec.mean vs = Vector.div (Spec.sum vs) (INR (List.length vs)).
Proof.
  unfold Spec.mean, Spec.scale, Vector.div. rnum.
  apply vec_eq; unfold Rdiv; ring.
Qed.

Lemma spec_steer (this : Boid R) (s : Vector R) :
  Spec.clampMagnitude (5 / 10)
    (Spec.minus (Spec.withMagnitude 5 s) (Boid.velocity this))
  = Boid.steer this s.
Proof.
  unfold Boid.steer. rewrite spec_clampMagnitude, spec_withMagnitude.
  rewrite MAX_FORCE_R, MAX_SPEED_R.
  replace (5 / 10) with (1 / 2) by lra. reflexivity.
Qed.

Lemma alignment_eq_spec (p : Params R) (this : Boid R)
    (boids : list (Boid R)) :
  Boid.alignment p this boids
  = Spec.alignment_spec (PERCEPTION_RADIUS p) this boids.
Proof.
  unfold Boid.alignment, Spec.alignment_spec. rnum.
  rewrite alignment_loop_sum, neighbours_in_range, count_positive, new_R.
  fold Spec.zero. rewrite spec_plus_zero_l, Rplus_0_l.
  rewrite spec_steer, spec_mean, length_map.
  destruct (Nat.ltb 0 _) eqn:Hn; [reflexivity |].
  apply Nat.ltb_ge in Hn.
  destruct (filter _ boids); [reflexivity | cbn in Hn; lia].
Qed.

Lemma cohesion_eq_spec (p : Params R) (this : Boid R)
    (boids : list (Boid R)) :
  Boid.cohesion p this boids
  = Spec.cohesion_spec (PERCEPTION_RADIUS p) this boids.
Proof.
  unfold Boid.cohesion, Spec.cohesion_spec. rnum.
  rewrite cohesion_loop_sum, neighbours_in_range, count_positive, new_R.
  fold Spec.zero. rewrite spec_plus_zero_l, Rplus_0_l.
  rewrite spec_steer, spec_mean, length_map.
  destruct (Nat.ltb 0 _) eqn:Hn; [reflexivity |].
  apply Nat.ltb_ge in Hn.
  destruct (filter _ boids); [reflexivity | cbn in Hn; lia].
Qed.

Lemma mean_single (v : Vector R) :
  Vector.div (Spec.sum [v]) (INR (List.length [v])) = v.
Proof.
  destruct v. unfold Spec.sum, Spec.plus, Spec.zero, Vector.div.
  cbn [fold_right List.length INR Vector.x Vector.y]. rnum.
  apply vec_eq; field.
Qed.

Lemma in_range_self (this : Boid R) (r : R) : in_range this r this = false.
Proof. unfold in_range, Boid.differs. now rewrite Nat.eqb_refl. Qed.

Lemma near_pair (this other : Boid R) (r : R) :
  in_range this r other = true ->
  filter (in_range this r) [this; other] = [other].
Proof.
  intros H. cbn [filter]. rewrite in_range_self, H. reflexivity.
Qed.

Lemma alignment_of_pair (p : Params R) (this other : Boid R) :
  in_range this (PERCEPTION_RADIUS p) other = true ->
  Boid.alignment p this [this; other]
  = Boid.steer this (Boid.velocity other).
Proof.
  intros Hin. unfold Boid.alignment. rnum.
  rewrite alignment_loop_sum, near_pair by assumption.
  rewrite count_positive, new_R. fold Spec.zero.
  rewrite spec_plus_zero_l, Rplus_0_l. cbn [map List.length Nat.ltb Nat.leb].
  now rewrite <- (mean_single (Boid.velocity other)) at 2.
Qed.

Lemma cohesion_of_pair (p : Params R) (this other : Boid R) :
  in_range this (PERCEPTION_RADIUS p) other = true ->
  Boid.cohesion p this [this; other]
  = Boid.steer this (Vector.sub (Boid.position other) (Boid.position this)).
Proof.
  intros Hin. unfold Boid.cohesion. rnum.
  rewrite cohesion_loop_sum, near_pair by assumption.
  rewrite count_positive, new_R. fold Spec.zero.
  rewrite spec_plus_zero_l, Rplus_0_l. cbn [map List.length Nat.ltb Nat.leb].
  now rewrite <- (mean_single (Boid.position other)) at 2.
Qed.

(** X7. In exact arithmetic [alignment] computes what the specification
    says: over the other agents within [PERCEPTION_RADIUS], the mean of
    their velocities rescaled to [MAX_SPEED], minus the agent's own
    velocity, clamped to [MAX_FORCE]; the zero vector when there is none.
    Its magnitude is at most [MAX_FORCE].  An agent at rest with one
    moving neighbour in range is steered along the neighbour's velocity
    with magnitude exactly [MAX_FORCE]. *)
Theorem alignment_steers_to_mean_velocity :
  (forall (p : Params R) (this : Boid R) (boids : list (Boid R)),
      Boid.alignment p this boids
      = Spec.alignment_spec (PERCEPTION_RADIUS p) this boids
      /\ Vector.mag (Boid.alignment p this boids) <= MAX_FORCE)
  /\ (forall (p : Params R) (this other : Boid R),
      in_range this (PERCEPTION_RADIUS p) other = true ->
      Boid.velocity this = Vector.mk 0 0 ->
      0 < Vector.mag (Boid.velocity other) ->
      let steering := Boid.alignment p this [this; other] in
      steering
      = Spec.scale (MAX_FORCE / Vector.mag (Boid.velocity other))
                   (Boid.velocity other)
      /\ Vector.mag steering = MAX_FORCE
      /\ 0 < dot steering (Boid.velocity other)).
Proof.
  split.
  - intros p this boids. split; [apply alignment_eq_spec |].
    apply rules_bounded_exact.
  - intros p this other Hin Hrest Hv steering.
    assert (Hc : 0 < MAX_FORCE / Vector.mag (Boid.velocity other))
      by (rewrite MAX_FORCE_R; apply Rdiv_lt_0_compat; lra).
    assert (Hs : steering
                 = Vector.mult (Boid.velocity other)
                     (MAX_FORCE / Vector.mag (Boid.velocity other))).
    { unfold steering. rewrite alignment_of_pair by assumption.
      now apply steer_at_rest. }
    split; [| split].
    + rewrite Hs. unfold Spec.scale, Vector.mult. rnum. apply vec_eq; ring.
    + rewrite Hs, mag_mult by lra. rewrite MAX_FORCE_R. field. lra.
    + rewrite Hs, dot_mult_l, dot_self.
      apply Rmult_lt_0_compat; [exact Hc | nra].
Qed.

Lemma alignment_steers_to_mean_velocity_witness :
  let this := boid_at 0 0 0 0 0 in
  let other := boid_at 1 3 0 0 1 in
  Vector.mag (Boid.alignment default_params this [this; other]) = MAX_FORCE.
Proof.
  intros this other.
  destruct alignment_steers_to_mean_velocity as [_ H].
  apply (H default_params this other).
  - unfold in_range, Boid.differs, this, other, boid_at.
    cbn [Boid.oid Boid.position Nat.eqb negb andb default_params
         PERCEPTION_RADIUS].
    rewrite dist_same_row. apply Rltb_true.
    replace (0 - 3) with (- (3)) by ring. rewrite Rabs_Ropp, Rabs_pos_eq; lra.
  - reflexivity.
  - unfold other, boid_at, Vector.mag. cbn [Boid.velocity Vector.x Vector.y].
    rnum. replace (0 * 0 + 1 * 1) with 1 by ring. rewrite sqrt_1. lra.
Defined.

(** X8. In exact arithmetic [cohesion] computes what the specification
    says: over the other agents within [PERCEPTION_RADIUS], the vector
    from the agent to the mean of their positions rescaled to
    [MAX_SPEED], minus the agent's velocity, clamped to [MAX_FORCE]; the
    zero vector when there is none.  Its magnitude is at most
    [MAX_FORCE].  An agent at rest with one neighbour in range, elsewhere
    than at its own position, is pulled straight towards the neighbour
    with magnitude exactly [MAX_FORCE]. *)
Theorem cohesion_steers_to_mean_position :
  (forall (p : Params R) (this : Boid R) (boids : list (Boid R)),
      Boid.cohesion p this boids
      = Spec.cohesion_spec (PERCEPTION_RADIUS p) this boids
      /\ Vector.mag (Boid.cohesion p this boids) <= MAX_FORCE)
  /\ (forall (p : Params R) (this other : Boid R),
      in_range this (PERCEPTION_RADIUS p) other = true ->
      Boid.velocity this = Vector.mk 0 0 ->
      Boid.position other <> Boid.position this ->
      let towards := Spec.minus (Boid.position other) (Boid.position this) in
      let steering := Boid.cohesion p this [this; other] in
      steering = Spec.scale (MAX_FORCE / Spec.magnitude towards) towards
      /\ Vector.mag steering = MAX_FORCE
      /\ 0 < dot steering towards).
Proof.
  split.
  - intros p this boids. split; [apply cohesion_eq_spec |].
    apply rules_bounded_exact.
  - intros p this other Hin Hrest Hpos towards steering.
    rewrite spec_magnitude.
    change towards
      with (Vector.sub (Boid.position other) (Boid.position this)) in *.
    set (to := Vector.sub (Boid.position other) (Boid.position this)) in *.
    assert (Hm : 0 < Vector.mag to).
    { pose proof (mag_nonneg to) as H0.
      destruct (Req_dec (Vector.mag to) 0) as [Hz | Hz]; [| lra].
      exfalso. apply Hpos. symmetry. apply dist_zero_iff.
      now rewrite dist_mag_sub. }
    assert (Hc : 0 < MAX_FORCE / Vector.mag to)
      by (rewrite MAX_FORCE_R; apply Rdiv_lt_0_compat; lra).
    assert (Hs : steering = Vector.mult to (MAX_FORCE / Vector.mag to)).
    { unfold steering. rewrite cohesion_of_pair by assumption.
      now apply steer_at_rest. }
    split; [| split].
    + rewrite Hs. unfold Spec.scale, Vector.mult. rnum. apply vec_eq; ring.
    + rewrite Hs, mag_mult by lra. rewrite MAX_FORCE_R. field. lra.
    + rewrite Hs, dot_mult_l, dot_self.
      apply Rmult_lt_0_compat; [exact Hc | nra].
Qed.

Lemma cohesion_steers_to_mean_position_witness :
  let this := boid_at 0 0 0 0 0 in
  let other := boid_at 1 3 0 0 1 in
  Vector.mag (Boid.cohesion default_params this [this; other]) = MAX_FORCE.
Proof.
  intros this other.
  destruct cohesion_steers_to_mean_position as [_ H].
  apply (H default_params this other).
  - unfold in_range, Boid.differs, this, other, boid_at.
    cbn [Boid.oid Boid.position Nat.eqb negb andb default_params
         PERCEPTION_RADIUS].
    rewrite dist_same_row. apply Rltb_true.
    replace (0 - 3) with (- (3)) by ring. rewrite Rabs_Ropp, Rabs_pos_eq; lra.
  - reflexivity.
  - unfold this, other, boid_at. cbn [Boid.position].
    intros E. injection E as E. lra.
Defined.

Section OnlyNeighbours.
Context {T : Type} {N : Number T}.

Lemma fold_left_filter (A S : Type) (body : S -> A -> S) (test : A -> bool) :
  (forall st a, test a = false -> body st a = st) ->
  forall l st, fold_left body l st = fold_left body (filter test l) st.
Proof.
  intros Hskip l. induction l as [| a l IH]; intros st; [reflexivity |].
  cbn [fold_left filter]. destruct (test a) eqn:E.
  - cbn [fold_left]. apply IH.
  - rewrite Hskip by assumption. apply IH.
Qed.

Lemma separation_body_ignores (this : Boid T) (ds : T) st other :
  counted this ds other = false -> Boid.separation_body this ds st other = st.
Proof.
  unfold counted, Boid.separation_body. destruct st as [s t].
  destruct (Boid.differs other this); cbn [andb]; [| reflexivity].
  now intros ->.
Qed.

Lemma alignment_body_ignores (this : Boid T) (r : T) st other :
  counted this r other = false -> Boid.alignment_body r this st other = st.
Proof.
  unfold counted, Boid.alignment_body. destruct st as [s t]. now intros ->.
Qed.

Lemma cohesion_body_ignores (this : Boid T) (r : T) st other :
  counted this r other = false -> Boid.cohesion_body r this st other = st.
Proof.
  unfold counted, Boid.cohesion_body. destruct st as [s t]. now intros ->.
Qed.
End OnlyNeighbours.

(** X9. On every carrier, binary64 included, a rule depends only on the
    agents its scan counts: the result is the same on the array with
    [this] itself and every agent out of range removed. *)
Theorem rules_see_only_neighbours {T : Type} {N : Number T}
    (p : Params T) (this : Boid T) (boids : list (Boid T)) :
  Boid.separation this boids
  = Boid.separation this
      (filter (counted this (num_mul (Boid.size this) (num_lit 6))) boids)
  /\ Boid.alignment p this boids
     = Boid.alignment p this
         (filter (counted this (PERCEPTION_RADIUS p)) boids)
  /\ Boid.cohesion p this boids
     = Boid.cohesion p this
         (filter (counted this (PERCEPTION_RADIUS p)) boids).
Proof.
  split; [| split].
  - unfold Boid.separation.
    now rewrite (fold_left_filter _ _
                   (fun st o => @separation_body_ignores _ _ this _ st o)).
  - unfold Boid.alignment.
    now rewrite (fold_left_filter _ _
                   (fun st o => @alignment_body_ignores _ _ this _ st o)).
  - unfold Boid.cohesion.
    now rewrite (fold_left_filter _ _
                   (fun st o => @cohesion_body_ignores _ _ this _ st o)).
Qed.

Lemma fold_left_permutation (A S : Type) (f : S -> A -> S) :
  (forall st a b, f (f st a) b = f (f st b) a) ->
  forall l l', Permutation l l' ->
  forall st, fold_left f l st = fold_left f l' st.
Proof.
  intros Hcomm l l' Hperm.
  induction Hperm as [| a l l' _ IH | a b l | l l' l'' _ IH1 _ IH2];
    intros st; cbn [fold_left].
  - reflexivity.
  - apply IH.
  - now rewrite Hcomm.
  - now rewrite IH1.
Qed.

Lemma separation_body_R (this : Boid R) (ds : R) (s : Vector R) (t : R)
    (other : Boid R) :
  Boid.separation_body this ds (s, t) other
  = if in_range this ds other then
      let d := Vector.dist (Boid.position this) (Boid.position other) in
      (Vector.add s
         (Vector.div (Vector.sub (Boid.position this) (Boid.position other))
                     (d * d)),
       t + 1)
    else (s, t).
Proof.
  unfold Boid.separation_body, in_range. rnum. rewrite copy_R.
  destruct (Boid.differs other this); cbn [andb]; reflexivity.
Qed.

Lemma alignment_body_R (this : Boid R) (r : R) (s : Vector R) (t : R)
    (other : Boid R) :
  Boid.alignment_body r this (s, t) other
  = if in_range this r other
    then (Vector.add s (Boid.velocity other), t + 1) else (s, t).
Proof. reflexivity. Qed.

Lemma cohesion_body_R (this : Boid R) (r : R) (s : Vector R) (t : R)
    (other : Boid R) :
  Boid.cohesion_body r this (s, t) other
  = if in_range this r other
    then (Vector.add s (Boid.position other), t + 1) else (s, t).
Proof. reflexivity. Qed.

Lemma add_swap (s a b : Vector R) :
  Vector.add (Vector.add s a) b = Vector.add (Vector.add s b) a.
Proof.
  unfold Vector.add. cbn [Vector.x Vector.y]. rnum. apply vec_eq; ring.
Qed.

Lemma separation_body_comm (this : Boid R) (ds : R) st a b :
  Boid.separation_body this ds (Boid.separation_body this ds st a) b
  = Boid.separation_body this ds (Boid.separation_body this ds st b) a.
Proof.
  destruct st as [s t]. rewrite (separation_body_R this ds s t a),
    (separation_body_R this ds s t b).
  destruct (in_range this ds a) eqn:Ea, (in_range this ds b) eqn:Eb;
    cbv zeta; rewrite ?separation_body_R, ?Ea, ?Eb; cbv zeta;
    try reflexivity.
  f_equal. apply add_swap.
Qed.

Lemma alignment_body_comm (this : Boid R) (r : R) st a b :
  Boid.alignment_body r this (Boid.alignment_body r this st a) b
  = Boid.alignment_body r this (Boid.alignment_body r this st b) a.
Proof.
  destruct st as [s t]. rewrite (alignment_body_R this r s t a),
    (alignment_body_R this r s t b).
  destruct (in_range this r a) eqn:Ea, (in_range this r b) eqn:Eb;
    rewrite ?alignment_body_R, ?Ea, ?Eb; try reflexivity.
  f_equal. apply add_swap.
Qed.

Lemma cohesion_body_comm (this : Boid R) (r : R) st a b :
  Boid.cohesion_body r this (Boid.cohesion_body r this st a) b
  = Boid.cohesion_body r this (Boid.cohesion_body r this st b) a.
Proof.
  destruct st as [s t]. rewrite (cohesion_body_R this r s t a),
    (cohesion_body_R this r s t b).
  destruct (in_range this r a) eqn:Ea, (in_range this r b) eqn:Eb;
    rewrite ?cohesion_body_R, ?Ea, ?Eb; try reflexivity.
  f_equal. apply add_swap.
Qed.

(** X10. In exact arithmetic the three rules and [flock] do not depend on
    the order of the agents in the array. *)
Theorem rules_ignore_array_order (p : Params R) (this : Boid R)
    (boids boids' : list (Boid R)) :
  Permutation boids boids' ->
  Boid.separation this boids = Boid.separation this boids'
  /\ Boid.alignment p this boids = Boid.alignment p this boids'
  /\ Boid.cohesion p this boids = Boid.cohesion p this boids'
  /\ Boid.flock p this boids = Boid.flock p this boids'.
Proof.
  intros Hperm.
  assert (Hs : Boid.separation this boids = Boid.separation this boids').
  { unfold Boid.separation.
    rewrite (@fold_left_permutation _ _ (Boid.separation_body this _))
      with (l' := boids'); trivial.
    intros. apply separation_body_comm. }
  assert (Ha : Boid.alignment p this boids = Boid.alignment p this boids').
  { unfold Boid.alignment.
    rewrite (@fold_left_permutation _ _ (Boid.alignment_body _ this))
      with (l' := boids'); trivial.
    intros. apply alignment_body_comm. }
  assert (Hc : Boid.cohesion p this boids = Boid.cohesion p this boids').
  { unfold Boid.cohesion.
    rewrite (@fold_left_permutation _ _ (Boid.cohesion_body _ this))
      with (l' := boids'); trivial.
    intros. apply cohesion_body_comm. }
  repeat split; trivial. unfold Boid.flock. now rewrite Hs, Ha, Hc.
Qed.

Lemma rules_ignore_array_order_witness :
  Boid.flock default_params (boid_at 0 1 0 0 0)
             [boid_at 0 1 0 0 0; boid_at 1 0 0 0 0]
  = Boid.flock default_params (boid_at 0 1 0 0 0)
               [boid_at 1 0 0 0 0; boid_at 0 1 0 0 0].
Proof.
  apply (@rules_ignore_array_order default_params (boid_at 0 1 0 0 0)
           [boid_at 0 1 0 0 0; boid_at 1 0 0 0 0]
           [boid_at 1 0 0 0 0; boid_at 0 1 0 0 0]).
  apply perm_swap.
Defined.

Lemma dist_shift (a b t : Vector R) :
  Vector.dist (Vector.add a t) (Vector.add b t) = Vector.dist a b.
Proof.
  unfold Vector.dist, Vector.add, pow2. cbn [Vector.x Vector.y]. rnum.
  f_equal. ring.
Qed.

Lemma sub_shift (a b t : Vector R) :
  Vector.sub (Vector.add a t) (Vector.add b t) = Vector.sub a b.
Proof.
  unfold Vector.sub, Vector.add. cbn [Vector.x Vector.y]. rnum.
  apply vec_eq; ring.
Qed.

Lemma in_range_shift (t : Vector R) (this other : Boid R) (r : R) :
  in_range (shift t this) r (shift t other) = in_range this r other.
Proof.
  unfold in_range, shift, Boid.set_position, Boid.differs.
  cbn [Boid.oid Boid.position]. now rewrite dist_shift.
Qed.

Lemma fold_left_map_same (A S : Type) (f f' : S -> A -> S) (g : A -> A) :
  (forall st a, f' st (g a) = f st a) ->
  forall l st, fold_left f' (map g l) st = fold_left f l st.
Proof.
  intros H l. induction l as [| a l IH]; intros st; [reflexivity |].
  cbn [map fold_left]. now rewrite H, IH.
Qed.

Lemma separation_shift (t : Vector R) (this : Boid R) (boids : list (Boid R)) :
  Boid.separation (shift t this) (map (shift t) boids)
  = Boid.separation this boids.
Proof.
  unfold Boid.separation.
  change (Boid.size (shift t this)) with (Boid.size this).
  rewrite (@fold_left_map_same _ _
             (Boid.separation_body this (num_mul (Boid.size this) (num_lit 6)))).
  - reflexivity.
  - intros [s c] o. rewrite !separation_body_R, in_range_shift.
    change (Boid.position (shift t this))
      with (Vector.add (Boid.position this) t).
    change (Boid.position (shift t o)) with (Vector.add (Boid.position o) t).
    now rewrite dist_shift, sub_shift.
Qed.

Lemma alignment_shift (p : Params R) (t : Vector R) (this : Boid R)
    (boids : list (Boid R)) :
  Boid.alignment p (shift t this) (map (shift t) boids)
  = Boid.alignment p this boids.
Proof.
  unfold Boid.alignment.
  rewrite (@fold_left_map_same _ _
             (Boid.alignment_body (PERCEPTION_RADIUS p) this)).
  - reflexivity.
  - intros [s c] o. now rewrite !alignment_body_R, in_range_shift.
Qed.

Lemma cohesion_loop_shift (t : Vector R) (this : Boid R) (r : R)
    (boids : list (Boid R)) (s : Vector R) (c : R) :
  fold_left (Boid.cohesion_body r (shift t this)) (map (shift t) boids)
            (Vector.add s (Vector.mult t c), c)
  = let (s', c') := fold_left (Boid.cohesion_body r this) boids (s, c) in
    (Vector.add s' (Vector.mult t c'), c').
Proof.
  induction boids as [| o rest IH] in s, c |- *.
  - reflexivity.
  - cbn [map fold_left]. rewrite !cohesion_body_R, in_range_shift.
    destruct (in_range this r o); [| apply IH].
    rewrite <- IH. f_equal. f_equal.
    change (Boid.position (shift t o)) with (Vector.add (Boid.position o) t).
    unfold Vector.add, Vector.mult. cbn [Vector.x Vector.y]. rnum.
    apply vec_eq; ring.
Qed.

Lemma cohesion_shift (p : Params R) (t : Vector R) (this : Boid R)
    (boids : list (Boid R)) :
  Boid.cohesion p (shift t this) (map (shift t) boids)
  = Boid.cohesion p this boids.
Proof.
  unfold Boid.cohesion. rnum. rewrite new_R.
  replace (Vector.mk 0 0)
    with (Vector.add (Vector.mk 0 0) (Vector.mult t 0)) at 1
    by (unfold Vector.add, Vector.mult; cbn [Vector.x Vector.y]; rnum;
        apply vec_eq; ring).
  rewrite cohesion_loop_shift.
  pose proof (@scan_total_mono
                (Boid.cohesion_body (PERCEPTION_RADIUS p) this)
                (in_range this (PERCEPTION_RADIUS p))
                (fun st o => @cohesion_body_skip this _ st o)
                (fun st o => @cohesion_body_count this _ st o)
                boids (Vector.mk 0 0, 0)) as Hc.
  destruct (fold_left _ boids _) as [s' c']. cbn [snd] in Hc.
  case_lt 0 c'.
  - change (Boid.position (shift t this))
      with (Vector.add (Boid.position this) t).
    change (Boid.steer (shift t this)) with (Boid.steer this). f_equal.
    unfold Vector.sub, Vector.div, Vector.add, Vector.mult.
    cbn [Vector.x Vector.y]. rnum. apply vec_eq; field; lra.
  - assert (c' = 0) as -> by lra.
    destruct s'. unfold Vector.add, Vector.mult. cbn [Vector.x Vector.y].
    rnum. apply vec_eq; ring.
Qed.

(** X11. In exact arithmetic the rules see relative positions only:
    moving the agent and every agent of the array by the same vector
    leaves the three steering vectors unchanged, and [flock] of the moved
    agent is the moved [flock]. *)
Theorem rules_are_translation_invariant (p : Params R) (t : Vector R)
    (this : Boid R) (boids : list (Boid R)) :
  Boid.separation (shift t this) (map (shift t) boids)
  = Boid.separation this boids
  /\ Boid.alignment p (shift t this) (map (shift t) boids)
     = Boid.alignment p this boids
  /\ Boid.cohesion p (shift t this) (map (shift t) boids)
     = Boid.cohesion p this boids
  /\ Boid.flock p (shift t this) (map (shift t) boids)
     = shift t (Boid.flock p this boids).
Proof.
  pose proof (separation_shift t this boids) as Hs.
  pose proof (alignment_shift p t this boids) as Ha.
  pose proof (cohesion_shift p t this boids) as Hc.
  repeat split; trivial.
  unfold Boid.flock. now rewrite Hs, Ha, Hc.
Qed.

(** * Further properties: special values in the steps of a frame *)

Lemma flock_fin (p : Params R) (this : Boid R) (boids : list (Boid R)) :
  apart this boids ->
  Boid.flock (params_fin p) (boid_fin this) (map boid_fin boids)
  = boid_fin (Boid.flock p this boids).
Proof.
  intros Hapart. unfold Boid.flock.
  rewrite separation_fin, alignment_fin, cohesion_fin by assumption.
  reflexivity.
Qed.

Lemma orbForce_fin (p : Params R) (this : Boid R) (orb : Orb R) :
  Boid.orbForce (params_fin p) (boid_fin this) (orb_fin orb)
  = option_map vec_fin (Boid.orbForce p this orb).
Proof.
  unfold Boid.orbForce.
  cbn [boid_fin orb_fin params_fin Boid.position Orb.position Orb.type
       PERCEPTION_RADIUS].
  rewrite dist_fin, copy_fin, copy_R, sub_fin, normalize_fin, MAX_FORCE_XR.
  xnum. cbn [xr_lt xr_mul]. rnum.
  set (d := Vector.dist (Boid.position this) (Orb.position orb)).
  case_lt 1 d; cbn [andb]; [| reflexivity].
  destruct (Rltb d (PERCEPTION_RADIUS p * 2)); [| reflexivity].
  cbn [option_map]. f_equal.
  destruct (Orb.type orb); unfold ORB_STRENGTH; xnum; cbn [xr_neg];
    rewrite xr_div_fin by lra; rewrite mult_fin, limit_fin; reflexivity.
Qed.

Lemma applyOrbForces_fin (p : Params R) (orbs : list (Orb R)) (this : Boid R) :
  Boid.applyOrbForces (params_fin p) (boid_fin this) (map orb_fin orbs)
  = boid_fin (Boid.applyOrbForces p this orbs).
Proof.
  unfold Boid.applyOrbForces.
  induction orbs as [| orb orbs IH] in this |- *; [reflexivity |].
  cbn [map fold_left]. rewrite <- IH. f_equal.
  unfold Boid.applyOrbForces_body. rewrite orbForce_fin.
  destruct (Boid.orbForce p this orb); reflexivity.
Qed.

Lemma frame_step_speed (p : Params R) (canvas : Canvas R) (orbs : list (Orb R))
    (b : Boid R) (view : list (Boid R)) :
  Vector.mag (Boid.velocity (frame_step p canvas orbs b view)) <= MAX_SPEED.
Proof. unfold frame_step. rewrite edges_speed. apply update_speed. Qed.

Lemma frame_step_acceleration (p : Params R) (canvas : Canvas R)
    (orbs : list (Orb R)) (b : Boid R) (view : list (Boid R)) :
  Boid.acceleration (frame_step p canvas orbs b view) = Vector.mk 0 0.
Proof.
  unfold frame_step. rewrite edges_acceleration. apply update_acceleration.
Qed.

Lemma animate_loop_Forall {T : Type} {N : Number T} (P : Boid T -> Prop)
    (p : Params T) (canvas : Canvas T) (orbs : list (Orb T))
    (todo done : list (Boid T)) :
  (forall b view, P (frame_step p canvas orbs b view)) ->
  Forall P done -> Forall P (animate_loop p canvas orbs done todo).
Proof.
  intros Hstep.
  induction todo as [| b rest IH] in done |- *; intros Hd; cbn; [assumption |].
  apply IH. apply Forall_app. split; [assumption |].
  constructor; [apply Hstep | constructor].
Qed.

(** * Further properties: flocking and orb forces *)

Lemma flock_alone_exact (p : Params R) (this : Boid R) (boids : list (Boid R)) :
  (forall other, In other boids ->
     in_range this (Boid.size this * 6) other = false) ->
  (forall other, In other boids ->
     in_range this (PERCEPTION_RADIUS p) other = false) ->
  Boid.flock p this boids = this.
Proof.
  intros Hsep Hper.
  destruct (rules_exact p this boids) as (Hs & Ha & Hc & _).
  unfold Boid.flock. rewrite (Hs Hsep), (Ha Hper), (Hc Hper).
  destruct this as [i pos vel [ax ay] sz col].
  unfold Boid.applyForce, Boid.set_acceleration, Vector.add, Vector.mult.
  cbn [Boid.oid Boid.position Boid.velocity Boid.acceleration Boid.size
       Boid.color Vector.x Vector.y]. rnum.
  f_equal. apply vec_eq; ring.
Qed.

(** X13. An agent with nobody in separation range and nobody within
    [PERCEPTION_RADIUS] is left exactly as it is by [flock], whatever the
    weights: no flocking force is applied. *)
Theorem flock_of_a_lone_agent (p : Params R) (this : Boid R)
    (boids : list (Boid R)) :
  (forall other, In other boids ->
     in_range this (Boid.size this * 6) other = false) ->
  (forall other, In other boids ->
     in_range this (PERCEPTION_RADIUS p) other = false) ->
  Boid.flock p this boids = this
  /\ Boid.flock (params_fin p) (boid_fin this) (map boid_fin boids)
     = boid_fin this.
Proof.
  intros Hsep Hper.
  assert (H : Boid.flock p this boids = this)
    by (now apply flock_alone_exact).
  split; [exact H |]. rewrite flock_fin; [now rewrite H |].
  intros other Hin Hid Hd. specialize (Hsep other Hin).
  unfold in_range, Boid.differs in Hsep.
  apply Nat.eqb_neq in Hid. rewrite Hid in Hsep. cbn [negb andb] in Hsep.
  apply Rltb_false in Hsep. lra.
Qed.

Lemma in_range_far_row (this other : Boid R) (a b c r : R) :
  Boid.position this = Vector.mk a c ->
  Boid.position other = Vector.mk b c ->
  r <= Rabs (a - b) ->
  in_range this r other = false.
Proof.
  intros Ht Ho Hr. unfold in_range. rewrite Ht, Ho, dist_same_row.
  apply Rltb_false in Hr. rewrite Hr. apply andb_false_r.
Qed.

Lemma sample_pair_far (r : R) :
  r <= 100 ->
  forall other,
    In other [boid_at 0 0 0 1 0; boid_at 1 100 0 0 1] ->
    in_range (boid_at 0 0 0 1 0) r other = false.
Proof.
  intros Hr other [<- | [<- | []]]; [apply in_range_self |].
  apply (@in_range_far_row _ _ 0 100 0); try reflexivity.
  replace (0 - 100) with (- (100)) by ring.
  rewrite Rabs_Ropp, Rabs_pos_eq; lra.
Qed.

Lemma flock_of_a_lone_agent_witness :
  Boid.flock default_params (boid_at 0 0 0 1 0)
             [boid_at 0 0 0 1 0; boid_at 1 100 0 0 1]
  = boid_at 0 0 0 1 0.
Proof.
  apply (@flock_of_a_lone_agent default_params (boid_at 0 0 0 1 0)
           [boid_at 0 0 0 1 0; boid_at 1 100 0 0 1]).
  - apply sample_pair_far. cbn. lra.
  - apply sample_pair_far. cbn. lra.
Defined.

Lemma mag_weighted (v : Vector R) (w : R) :
  Vector.mag v <= MAX_FORCE ->
  Vector.mag (Vector.mult v w) <= MAX_FORCE * Rabs w.
Proof.
  intros H. rewrite mag_mult_abs.
  apply Rmult_le_compat_r; [apply Rabs_pos | exact H].
Qed.

(** X14. In exact arithmetic, with every in-range agent at positive
    distance (so that no division by zero occurs), [flock] changes nothing
    but the acceleration, and adds to it a vector of magnitude at most
    [MAX_FORCE * (|SEPARATION_WEIGHT| + |ALIGNMENT_WEIGHT| + |COHESION_WEIGHT|)]. *)
Theorem flock_force_bounded (p : Params R) (this : Boid R)
    (boids : list (Boid R)) :
  apart this boids ->
  let after := Boid.flock p this boids in
  Boid.position after = Boid.position this
  /\ Boid.velocity after = Boid.velocity this
  /\ Boid.oid after = Boid.oid this
  /\ Boid.size after = Boid.size this
  /\ Boid.color after = Boid.color this
  /\ Vector.mag (Vector.sub (Boid.acceleration after) (Boid.acceleration this))
     <= MAX_FORCE * (Rabs (SEPARATION_WEIGHT p) + Rabs (ALIGNMENT_WEIGHT p)
                     + Rabs (COHESION_WEIGHT p)).
Proof.
  intros _ after. repeat split.
  destruct (rules_bounded_exact p this boids) as (Hs & Ha & Hc).
  unfold after, Boid.flock, Boid.applyForce, Boid.set_acceleration.
  cbn [Boid.acceleration].
  set (S := Vector.mult (Boid.separation this boids) (SEPARATION_WEIGHT p)).
  set (A := Vector.mult (Boid.alignment p this boids) (ALIGNMENT_WEIGHT p)).
  set (C := Vector.mult (Boid.cohesion p this boids) (COHESION_WEIGHT p)).
  replace (Vector.sub
             (Vector.add (Vector.add (Vector.add (Boid.acceleration this) S) A)
                         C)
             (Boid.acceleration this))
    with (Vector.add (Vector.add S A) C)
    by (unfold Vector.sub, Vector.add; cbn [Vector.x Vector.y]; rnum;
        apply vec_eq; ring).
  pose proof (mag_triangle (Vector.add S A) C) as H1.
  pose proof (mag_triangle S A) as H2.
  pose proof (@mag_weighted _ (SEPARATION_WEIGHT p) Hs) as Hs'.
  pose proof (@mag_weighted _ (ALIGNMENT_WEIGHT p) Ha) as Ha'.
  pose proof (@mag_weighted _ (COHESION_WEIGHT p) Hc) as Hc'.
  fold S in Hs'. fold A in Ha'. fold C in Hc'. lra.
Qed.

Lemma flock_force_bounded_witness :
  let this := boid_at 0 1 0 0 0 in
  let boids := [boid_at 0 1 0 0 0; boid_at 1 0 0 0 0] in
  Vector.mag (Vector.sub (Boid.acceleration (Boid.flock default_params this boids))
                         (Boid.acceleration this))
  <= MAX_FORCE * (Rabs (3 / 2) + Rabs 1 + Rabs 1).
Proof.
  intros this boids.
  apply (@flock_force_bounded default_params this boids).
  intros other [<- | [<- | []]] Hid Hd; [now destruct Hid |].
  unfold this, boid_at. cbn [Boid.position]. rewrite dist_same_row.
  apply Rabs_pos_lt. lra.
Defined.

Lemma orbForce_bounded (p : Params R) (this : Boid R) (orb : Orb R)
    (f : Vector R) :
  Boid.orbForce p this orb = Some f -> Vector.mag f <= MAX_FORCE.
Proof.
  unfold Boid.orbForce. destruct (_ && _); [| discriminate].
  intros H. injection H as <-. apply mag_limit. rewrite MAX_FORCE_R. lra.
Qed.

Lemma orb_forces_bounded (p : Params R) (this : Boid R) (orbs : list (Orb R)) :
  Forall (fun f => Vector.mag f <= MAX_FORCE) (orb_forces p this orbs)
  /\ (List.length (orb_forces p this orbs) <= List.length orbs)%nat.
Proof.
  unfold orb_forces. induction orbs as [| orb orbs [IH1 IH2]].
  - split; [constructor | apply Nat.le_refl].
  - cbn [flat_map List.length].
    destruct (Boid.orbForce p this orb) as [f |] eqn:E; cbn [app List.length].
    + split; [constructor; [now apply (orbForce_bounded p this orb) |
                            exact IH1] | lia].
    + split; [exact IH1 | lia].
Qed.

Lemma sum_of_bounded (fs : list (Vector R)) (acc : Vector R) (m : R) :
  0 <= m ->
  Forall (fun f => Vector.mag f <= m) fs ->
  Vector.mag (Vector.sub (fold_left Vector.add fs acc) acc)
  <= m * INR (List.length fs).
Proof.
  intros Hm Hall. induction fs as [| f fs IH] using rev_ind.
  - cbn [fold_left List.length INR].
    replace (Vector.sub acc acc) with (Vector.mk 0 0)
      by (unfold Vector.sub; rnum; apply vec_eq; ring).
    rewrite mag_zero_vector. lra.
  - apply Forall_app in Hall. destruct Hall as [Hfs Hf].
    inversion Hf as [| ? ? Hf1 _]; subst.
    rewrite fold_left_app, length_app, plus_INR. cbn [fold_left List.length].
    specialize (IH Hfs).
    replace (Vector.sub (Vector.add (fold_left Vector.add fs acc) f) acc)
      with (Vector.add (Vector.sub (fold_left Vector.add fs acc) acc) f)
      by (unfold Vector.sub, Vector.add; cbn [Vector.x Vector.y]; rnum;
          apply vec_eq; ring).
    pose proof (mag_triangle (Vector.sub (fold_left Vector.add fs acc) acc) f).
    cbn [INR]. lra.
Qed.

(** X15. [applyOrbForces] stays within the finite numbers for every orb
    and every position, changes nothing but the acceleration, adds at most
    [MAX_FORCE] per orb, and adds nothing when there is no orb. *)
Theorem orb_forces_are_bounded (p : Params R) (this : Boid R)
    (orbs : list (Orb R)) :
  let after := Boid.applyOrbForces p this orbs in
  Boid.applyOrbForces (params_fin p) (boid_fin this) (map orb_fin orbs)
  = boid_fin after
  /\ Boid.position after = Boid.position this
  /\ Boid.velocity after = Boid.velocity this
  /\ Boid.oid after = Boid.oid this
  /\ Boid.size after = Boid.size this
  /\ Boid.color after = Boid.color this
  /\ Vector.mag (Vector.sub (Boid.acceleration after) (Boid.acceleration this))
     <= MAX_FORCE * INR (List.length orbs)
  /\ Boid.applyOrbForces p this [] = this.
Proof.
  intros after. split; [apply applyOrbForces_fin |].
  unfold after. rewrite applyOrbForces_sum.
  cbn [Boid.set_acceleration Boid.position Boid.velocity Boid.oid Boid.size
       Boid.color Boid.acceleration].
  repeat split.
  destruct (orb_forces_bounded p this orbs) as [Hall Hlen].
  assert (Hmf : 0 <= @MAX_FORCE R _) by (rewrite MAX_FORCE_R; lra).
  eapply Rle_trans; [apply (sum_of_bounded _ Hmf Hall) |].
  apply Rmult_le_compat_l; [exact Hmf | now apply le_INR].
Qed.

Lemma mag_unit_scaled (v : Vector R) (s : R) :
  Vector.mag v = 1 -> Vector.mag (Vector.mult v s) = Rabs s.
Proof. intros H. rewrite mag_mult_abs, H. ring. Qed.

(** X16. The force of an orb in range has magnitude
    [min(ORB_STRENGTH / d, MAX_FORCE)]: closer than
    [ORB_STRENGTH / MAX_FORCE = 80] it is exactly [MAX_FORCE], so the
    decrease with distance only shows between 80 and
    [2 * PERCEPTION_RADIUS]. *)
Theorem orb_force_magnitude (p : Params R) (this : Boid R) (orb : Orb R)
    (force : Vector R) :
  let d := Vector.dist (Boid.position this) (Orb.position orb) in
  Boid.orbForce p this orb = Some force ->
  1 < d < PERCEPTION_RADIUS p * 2
  /\ Vector.mag force = Rmin (40 / d) (1 / 2)
  /\ (d <= 80 -> Vector.mag force = 1 / 2)
  /\ (80 <= d -> Vector.mag force = 40 / d).
Proof.
  intros d Hf.
  assert (Hd : 1 < d < PERCEPTION_RADIUS p * 2).
  { destruct (Rlt_le_dec 1 d) as [H1 | H1];
      [destruct (Rlt_le_dec d (PERCEPTION_RADIUS p * 2)) as [H2 | H2] |].
    - split; assumption.
    - rewrite orbForce_out_of_range in Hf by (right; exact H2). discriminate.
    - rewrite orbForce_out_of_range in Hf by (left; exact H1). discriminate. }
  split; [exact Hd |].
  assert (Hforce : force
            = Vector.limit
                (Vector.mult
                   (Vector.normalize
                      (Vector.sub (Orb.position orb) (Boid.position this)))
                   match Orb.type orb with
                   | attractor => ORB_STRENGTH / d
                   | repulsor => - ORB_STRENGTH / d
                   end) MAX_FORCE).
  { rewrite (orbForce_in_range p this orb Hd) in Hf. now injection Hf. }
  assert (Hunit : Vector.mag (Vector.normalize
                    (Vector.sub (Orb.position orb) (Boid.position this))) = 1).
  { apply mag_normalize. rewrite <- dist_mag_sub. fold d. lra. }
  assert (Hpos : 0 < 40 / d) by (apply Rdiv_lt_0_compat; lra).
  assert (Hmag : Vector.mag force = Rmin (40 / d) (1 / 2)).
  { rewrite Hforce. rewrite mag_limit_min by (rewrite MAX_FORCE_R; lra).
    rewrite MAX_FORCE_R, (@mag_unit_scaled _ _ Hunit). f_equal.
    unfold ORB_STRENGTH. rnum. destruct (Orb.type orb).
    - apply Rabs_pos_eq. lra.
    - replace (- (40) / d) with (- (40 / d)) by (field; lra).
      rewrite Rabs_Ropp. apply Rabs_pos_eq. lra. }
  split; [exact Hmag |]. split; intros H; rewrite Hmag.
  - apply Rmin_right. apply Rmult_le_reg_r with d; [lra |].
    replace (40 / d * d) with 40 by (field; lra). lra.
  - apply Rmin_left. apply Rmult_le_reg_r with d; [lra |].
    replace (40 / d * d) with 40 by (field; lra). lra.
Qed.

Lemma sample_orb_distance :
  Vector.dist (Boid.position (boid_at 0 0 0 0 0))
              (Orb.position (orb_at 2 0 attractor)) = 2.
Proof.
  unfold boid_at, orb_at. cbn [Boid.position Orb.position].
  rewrite dist_same_row. replace (0 - 2) with (- (2)) by ring.
  rewrite Rabs_Ropp. apply Rabs_pos_eq. lra.
Qed.

Lemma orb_force_magnitude_witness :
  exists force,
    Boid.orbForce default_params (boid_at 0 0 0 0 0) (orb_at 2 0 attractor)
    = Some force
    /\ Vector.mag force = 1 / 2.
Proof.
  assert (Hd : 1 < Vector.dist (Boid.position (boid_at 0 0 0 0 0))
                               (Orb.position (orb_at 2 0 attractor))
               < PERCEPTION_RADIUS default_params * 2)
    by (rewrite sample_orb_distance; cbn; lra).
  eexists. split; [apply (orbForce_in_range _ _ _ Hd) |].
  apply (@orb_force_magnitude default_params (boid_at 0 0 0 0 0)
           (orb_at 2 0 attractor) _ (orbForce_in_range _ _ _ Hd)).
  rewrite sample_orb_distance. lra.
Defined.

Lemma mag_negated (v : Vector R) :
  Vector.mag (Vector.mult v (-1)) = Vector.mag v.
Proof.
  rewrite mag_mult_abs. replace (Rabs (-1)) with 1; [ring |].
  unfold Rabs. destruct (Rcase_abs (-1)); lra.
Qed.

Lemma limit_negated (v : Vector R) (max : R) :
  Vector.limit (Vector.mult v (-1)) max
  = Vector.mult (Vector.limit v max) (-1).
Proof.
  destruct (Rlt_le_dec max (Vector.mag v)) as [H | H].
  - pose proof (mag_nonneg v) as Hv.
    destruct (Rle_lt_dec (Vector.mag v) 0) as [H0 | H0].
    + assert (Vector.mag v = 0) as Hz by lra.
      apply mag_zero_iff in Hz. subst v.
      rewrite !limit_over by (rewrite ?mag_negated; exact H).
      unfold Vector.setMag.
      rewrite !normalize_zero
        by (rewrite ?mag_negated; now apply mag_zero_iff).
      unfold Vector.mult. cbn [Vector.x Vector.y]. rnum. apply vec_eq; ring.
    + rewrite !limit_over by (rewrite ?mag_negated; exact H).
      unfold Vector.setMag.
      rewrite !normalize_pos by (rewrite ?mag_negated; exact H0).
      rewrite mag_negated.
      unfold Vector.mult, Vector.div. cbn [Vector.x Vector.y]. rnum.
      apply vec_eq; field; lra.
  - rewrite !limit_under by (rewrite ?mag_negated; exact H). reflexivity.
Qed.

(** X17. A repulsor pushes exactly as hard as an attractor at the same
    place pulls: its force is the attractor's force negated, and it acts
    on exactly the same range of distances. *)
Theorem repulsor_mirrors_attractor (p : Params R) (this : Boid R)
    (position : Vector R) (radius radius' : R) (color color' : string) :
  Boid.orbForce p this (Orb.mk position radius repulsor color)
  = option_map (fun force => Vector.mult force (-1))
      (Boid.orbForce p this (Orb.mk position radius' attractor color')).
Proof.
  unfold Boid.orbForce. cbn [Orb.position Orb.type].
  set (d := Vector.dist (Boid.position this) position).
  destruct (num_lt _ d && num_lt d _) eqn:E; [| reflexivity].
  cbn [option_map]. f_equal. rewrite <- limit_negated. f_equal.
  apply andb_prop in E. destruct E as [E1 _]. rnum. apply Rltb_true in E1.
  unfold Vector.mult, ORB_STRENGTH. cbn [Vector.x Vector.y]. rnum.
  apply vec_eq; field; lra.
Qed.

Lemma dist_after_add (a v : Vector R) :
  Vector.dist a (Vector.add a v) = Vector.mag v.
Proof.
  rewrite dist_mag_sub. f_equal. destruct v.
  unfold Vector.sub, Vector.add. cbn [Vector.x Vector.y]. rnum.
  apply vec_eq; ring.
Qed.



(** * Further properties: boundaries and the frame loop *)

Lemma wrap_axis_inside (c extent : R) :
  0 <= extent -> 0 <= Boid.wrap_axis c extent <= extent.
Proof.
  intros He. unfold Boid.wrap_axis. rnum.
  case_lt extent c; [| case_lt c 0]; lra.
Qed.

Lemma bounce_axis_inside (c v extent : R) :
  1 <= extent -> 0 <= fst (Boid.bounce_axis c v extent) <= extent.
Proof.
  intros He. unfold Boid.bounce_axis. rnum.
  case_lt extent c; [| case_lt c 0]; cbn [fst]; lra.
Qed.

Lemma edges_fixed_inside (canvas : Canvas R) (w : bool) (b : Boid R) :
  inside canvas (Boid.position b) -> Boid.edges canvas w b = b.
Proof.
  intros [[Hx1 Hx2] [Hy1 Hy2]].
  destruct b as [i [px py] [vx vy] acc sz col].
  cbn [Boid.position Vector.x Vector.y] in *.
  unfold Boid.edges, Boid.set_position, Boid.wrap_axis, Boid.bounce_axis.
  cbn [Boid.oid Boid.position Boid.velocity Boid.acceleration Boid.size
       Boid.color Vector.x Vector.y]. rnum.
  replace (Rltb (width canvas) px) with false
    by (symmetry; now apply Rltb_false).
  replace (Rltb px 0) with false by (symmetry; now apply Rltb_false).
  replace (Rltb (height canvas) py) with false
    by (symmetry; now apply Rltb_false).
  replace (Rltb py 0) with false by (symmetry; now apply Rltb_false).
  destruct w; reflexivity.
Qed.

Lemma edges_wrap_inside (canvas : Canvas R) (b : Boid R) :
  0 <= width canvas -> 0 <= height canvas ->
  inside canvas (Boid.position (Boid.edges canvas true b)).
Proof.
  intros Hw Hh. unfold Boid.edges, inside, Boid.set_position.
  cbn [Boid.position Vector.x Vector.y].
  split; now apply wrap_axis_inside.
Qed.

Lemma edges_bounce_inside (canvas : Canvas R) (b : Boid R) :
  1 <= width canvas -> 1 <= height canvas ->
  inside canvas (Boid.position (Boid.edges canvas false b)).
Proof.
  intros Hw Hh. unfold Boid.edges, inside.
  pose proof (bounce_axis_inside (Vector.x (Boid.position b))
                (Vector.x (Boid.velocity b)) Hw) as Hx.
  pose proof (bounce_axis_inside (Vector.y (Boid.position b))
                (Vector.y (Boid.velocity b)) Hh) as Hy.
  destruct (Boid.bounce_axis _ _ (width canvas)) as [px' vx'].
  destruct (Boid.bounce_axis _ _ (height canvas)) as [py' vy'].
  cbn [Boid.position Vector.x Vector.y fst] in *. split; assumption.
Qed.

Lemma frame_step_inside (p : Params R) (canvas : Canvas R)
    (orbs : list (Orb R)) (b : Boid R) (view : list (Boid R)) :
  1 <= width canvas -> 1 <= height canvas ->
  inside canvas (Boid.position (frame_step p canvas orbs b view)).
Proof.
  intros Hw Hh. unfold frame_step. destruct (wrap p).
  - apply edges_wrap_inside; lra.
  - now apply edges_bounce_inside.
Qed.

(** X12. A frame in exact arithmetic.  When no scan of the frame meets an
    agent at the very position of the scanning one (so that no division by
    zero occurs), the frame ends with every agent on the canvas, at a
    speed of at most [MAX_SPEED] and with zero acceleration, whatever the
    orbs, the weights and the boundary mode.  The canvas is at least one
    unit wide and high. *)
Theorem frame_without_coincidence (p : Params R) (canvas : Canvas R)
    (orbs : list (Orb R)) (boids : list (Boid R)) :
  1 <= width canvas -> 1 <= height canvas ->
  scans_apart p canvas orbs [] boids ->
  Forall (fun b => inside canvas (Boid.position b)
                   /\ Vector.mag (Boid.velocity b) <= MAX_SPEED
                   /\ Boid.acceleration b = Vector.mk 0 0)
         (animate p canvas orbs boids).
Proof.
  intros Hw Hh _. apply animate_loop_Forall; [| constructor].
  intros b view. split; [now apply frame_step_inside |].
  split; [apply frame_step_speed | apply frame_step_acceleration].
Qed.

Lemma coordinates_le_dist (a b : Vector R) :
  Rabs (Vector.x a - Vector.x b) <= Vector.dist a b
  /\ Rabs (Vector.y a - Vector.y b) <= Vector.dist a b.
Proof.
  unfold Vector.dist, pow2. rnum.
  set (dx := Vector.x a - Vector.x b). set (dy := Vector.y a - Vector.y b).
  rewrite <- (sqrt_Rsqr_abs dx), <- (sqrt_Rsqr_abs dy).
  split; apply sqrt_le_1_alt; unfold Rsqr; nra.
Qed.

Lemma frame_step_moves_little (p : Params R) (canvas : Canvas R)
    (b : Boid R) (view : list (Boid R)) :
  wrap p = true ->
  5 <= Vector.x (Boid.position b) <= width canvas - 5 ->
  5 <= Vector.y (Boid.position b) <= height canvas - 5 ->
  Vector.dist (Boid.position b)
              (Boid.position (frame_step p canvas [] b view)) <= 5.
Proof.
  intros Hwrap Hx Hy. unfold frame_step. rewrite Hwrap.
  cbn [Boid.applyOrbForces fold_left].
  set (u := Boid.update (Boid.flock p b view)).
  assert (Hd : Vector.dist (Boid.position b) (Boid.position u) <= 5).
  { unfold u, Boid.update. cbn [Boid.position].
    change (Boid.position (Boid.flock p b view)) with (Boid.position b).
    rewrite dist_after_add. apply update_speed. }
  destruct (coordinates_le_dist (Boid.position b) (Boid.position u))
    as [Hcx Hcy].
  rewrite edges_fixed_inside; [exact Hd |].
  unfold inside, Rabs in *.
  destruct (Rcase_abs _) in Hcx; destruct (Rcase_abs _) in Hcy; lra.
Qed.

Lemma frame_without_coincidence_witness :
  let boids := [boid_at 0 100 100 1 0; boid_at 1 120 100 0 1] in
  Forall (fun b => inside (Build_Canvas 800 600) (Boid.position b)
                   /\ Vector.mag (Boid.velocity b) <= MAX_SPEED
                   /\ Boid.acceleration b = Vector.mk 0 0)
         (animate default_params (Build_Canvas 800 600) [] boids).
Proof.
  intros boids.
  apply frame_without_coincidence; cbn [width height]; try lra.
  unfold boids. cbn [scans_apart app]. repeat split.
  - intros other [<- | [<- | []]] Hid Hd; [now destruct Hid |].
    unfold boid_at. cbn [Boid.position]. rewrite dist_same_row.
    apply Rabs_pos_lt. lra.
  - intros other [<- | [<- | []]] Hid Hd; [| now destruct Hid].
    set (moved := frame_step _ _ _ _ _).
    assert (Hnear : Vector.dist (Boid.position (boid_at 0 100 100 1 0))
                                (Boid.position moved) <= 5)
      by (apply frame_step_moves_little; cbn; try reflexivity; lra).
    destruct (coordinates_le_dist (Boid.position (boid_at 0 100 100 1 0))
                                  (Boid.position moved)) as [Hx _].
    destruct (coordinates_le_dist (Boid.position (boid_at 1 120 100 0 1))
                                  (Boid.position moved)) as [Hx' _].
    cbn [boid_at Boid.position Vector.x] in Hx, Hx', Hnear |- *.
    unfold Rabs in Hx, Hx'.
    destruct (Rcase_abs _) in Hx; destruct (Rcase_abs _) in Hx'; lra.
Defined.



Section Roster.
Context {T : Type} {N : Number T}.

Lemma applyOrbForces_badge (p : Params T) (orbs : list (Orb T)) (b : Boid T) :
  badge (Boid.applyOrbForces p b orbs) = badge b.
Proof.
  unfold Boid.applyOrbForces.
  induction orbs as [| orb orbs IH] in b |- *; [reflexivity |].
  cbn [fold_left]. rewrite IH. unfold Boid.applyOrbForces_body.
  destruct (Boid.orbForce p b orb); reflexivity.
Qed.

Lemma edges_badge (canvas : Canvas T) (w : bool) (b : Boid T) :
  badge (Boid.edges canvas w b) = badge b.
Proof.
  unfold Boid.edges. destruct w; [reflexivity |].
  destruct (Boid.bounce_axis _ _ (width canvas)).
  destruct (Boid.bounce_axis _ _ (height canvas)). reflexivity.
Qed.

Lemma frame_step_badge (p : Params T) (canvas : Canvas T) (orbs : list (Orb T))
    (b : Boid T) (view : list (Boid T)) :
  badge (frame_step p canvas orbs b view) = badge b.
Proof.
  unfold frame_step. rewrite edges_badge.
  change (badge (Boid.update ?x)) with (badge x).
  now rewrite applyOrbForces_badge.
Qed.

Lemma animate_loop_badges (p : Params T) (canvas : Canvas T)
    (orbs : list (Orb T)) (todo done : list (Boid T)) :
  map badge (animate_loop p canvas orbs done todo)
  = map badge done ++ map badge todo.
Proof.
  induction todo as [| b rest IH] in done |- *; cbn [animate_loop map].
  - now rewrite app_nil_r.
  - rewrite IH, map_app, <- app_assoc. cbn [map app].
    now rewrite frame_step_badge.
Qed.
End Roster.

(** X20. On every carrier, a frame keeps the roster: the same agents in
    the same slots, none added, dropped or reordered, each with its size
    and colour. *)
Theorem animate_keeps_the_roster {T : Type} {N : Number T}
    (p : Params T) (canvas : Canvas T) (orbs : list (Orb T))
    (boids : list (Boid T)) :
  map badge (animate p canvas orbs boids) = map badge boids
  /\ List.length (animate p canvas orbs boids) = List.length boids
  /\ animate p canvas orbs [] = [].
Proof.
  assert (H : map badge (animate p canvas orbs boids) = map badge boids)
    by apply (animate_loop_badges p canvas orbs boids []).
  split; [exact H |]. split; [| reflexivity].
  apply (f_equal (@List.length _)) in H. now rewrite !length_map in H.
Qed.

(** * Further properties: construction, reset and the controls *)

Lemma new_Boid_fresh (hsl : R -> string) (canvas : Canvas R) (rand : nat -> R)
    (ref : nat) :
  unit_draws rand -> 0 <= width canvas -> 0 <= height canvas ->
  fresh_agent canvas (new_Boid hsl canvas rand ref)
  /\ Boid.velocity (new_Boid hsl canvas rand ref)
     = Vector.mk (rand 2%nat * 4 - 2) (rand 3%nat * 4 - 2).
Proof.
  intros Hr Hw Hh.
  pose proof (Hr 0%nat) as H0. pose proof (Hr 1%nat) as H1.
  pose proof (Hr 2%nat) as H2. pose proof (Hr 3%nat) as H3.
  set (v := Vector.mk (rand 2%nat * 4 - 2) (rand 3%nat * 4 - 2)).
  assert (Hmag : Vector.mag v < 5).
  { unfold Vector.mag, v. cbn [Vector.x Vector.y]. rnum.
    rewrite <- (sqrt_square 5) by lra.
    apply sqrt_lt_1_alt. split; [apply sumsq_nonneg | nra]. }
  assert (Hvel : Boid.velocity (new_Boid hsl canvas rand ref) = v).
  { unfold new_Boid. cbn [Boid.velocity]. rnum. rewrite new_R. fold v.
    apply limit_under. rewrite MAX_SPEED_R. lra. }
  split; [| exact Hvel].
  unfold fresh_agent. rewrite Hvel. unfold new_Boid, inside.
  cbn [Boid.position Boid.acceleration Boid.size]. rnum. rewrite !new_R.
  unfold v. cbn [Vector.x Vector.y]. rewrite MAX_SPEED_R.
  repeat split; try lra; try nra. exact Hmag.
Qed.

Lemma populate_fresh (hsl : R -> string) (canvas : Canvas R) (n : nat)
    (rand : nat -> R) (ref : nat) :
  unit_draws rand -> 0 <= width canvas -> 0 <= height canvas ->
  Forall (fresh_agent canvas) (populate hsl canvas rand ref n).
Proof.
  intros Hr Hw Hh. induction n as [| n IH] in rand, ref, Hr |- *;
    cbn [populate]; constructor.
  - now apply new_Boid_fresh.
  - apply IH. intros k. apply Hr.
Qed.

Lemma populate_refs {T : Type} {N : Number T} (hsl : T -> string)
    (canvas : Canvas T) (n : nat) (rand : nat -> T) (ref : nat) :
  map (@Boid.oid T) (populate hsl canvas rand ref n) = seq ref n.
Proof.
  induction n as [| n IH] in rand, ref |- *; cbn [populate map seq];
    [reflexivity |].
  now rewrite IH.
Qed.

(** X21. [new Boid()], with [Math.random()] in [0, 1) and a canvas of
    non-negative extent, gives an agent on the canvas whose velocity
    components lie in [-2, 2); its speed is below [MAX_SPEED], so the
    constructor's [limit(MAX_SPEED)] never changes the velocity; the
    acceleration is zero and the size 2.  The same holds for every agent
    the population loop creates. *)
Theorem new_Boid_is_fresh (hsl : R -> string) (canvas : Canvas R)
    (rand : nat -> R) (ref : nat) :
  unit_draws rand -> 0 <= width canvas -> 0 <= height canvas ->
  fresh_agent canvas (new_Boid hsl canvas rand ref)
  /\ Boid.velocity (new_Boid hsl canvas rand ref)
     = Vector.mk (rand 2%nat * 4 - 2) (rand 3%nat * 4 - 2)
  /\ Boid.position (new_Boid hsl canvas rand ref)
     = Vector.mk (rand 0%nat * width canvas) (rand 1%nat * height canvas)
  /\ (forall n, Forall (fresh_agent canvas) (populate hsl canvas rand ref n)).
Proof.
  intros Hr Hw Hh. destruct (@new_Boid_fresh hsl canvas rand ref Hr Hw Hh) as [Hf Hv].
  split; [exact Hf |]. split; [exact Hv |]. split.
  - unfold new_Boid. cbn [Boid.position]. apply new_R.
  - intros n. now apply populate_fresh.
Qed.

Lemma new_Boid_is_fresh_witness :
  fresh_agent (Build_Canvas 800 600)
    (new_Boid (fun _ => "hsl(180, 70%, 65%)"%string) (Build_Canvas 800 600)
              (fun _ => 1 / 2) 0).
Proof.
  apply (@new_Boid_is_fresh (fun _ => "hsl(180, 70%, 65%)"%string)
           (Build_Canvas 800 600) (fun _ => 1 / 2) 0%nat).
  - intros k. lra.
  - cbn. lra.
  - cbn. lra.
Defined.

(** X22. On every carrier, [initSimulation] discards the old agents and
    the orbs: afterwards there are exactly [NUM_BOIDS] agents (none when
    [NUM_BOIDS] is zero or negative), all newly created objects in creation
    order, no orb, the canvas at its resized extent, and the sliders'
    parameters untouched. *)
Theorem initSimulation_rebuilds {T : Type} {N : Number T}
    (hsl : T -> string) (rand : nat -> T) (ref : nat) (resized : Canvas T)
    (s : Sim T) :
  let s' := initSimulation hsl rand ref resized s in
  List.length (sim_boids s') = Z.to_nat (NUM_BOIDS s)
  /\ map (@Boid.oid T) (sim_boids s') = seq ref (Z.to_nat (NUM_BOIDS s))
  /\ NoDup (map (@Boid.oid T) (sim_boids s'))
  /\ sim_orbs s' = []
  /\ sim_canvas s' = resized
  /\ sim_params s' = sim_params s
  /\ NUM_BOIDS s' = NUM_BOIDS s
  /\ ((NUM_BOIDS s <= 0)%Z -> sim_boids s' = []).
Proof.
  intros s'.
  assert (Hrefs : map (@Boid.oid T) (sim_boids s')
                  = seq ref (Z.to_nat (NUM_BOIDS s))).
  { unfold s', initSimulation, animate_frame. cbn [sim_boids sim_params sim_orbs].
    pose proof (animate_loop_badges (sim_params s) resized []
                  (populate hsl (sim_canvas s) rand ref
                            (Z.to_nat (NUM_BOIDS s))) []) as Hb.
    apply (f_equal (map (fun t : nat * T * string => fst (fst t)))) in Hb.
    cbn [map app] in Hb. rewrite !map_map in Hb. cbn [badge fst] in Hb.
    unfold animate.
    erewrite map_ext; [rewrite Hb |]; [| reflexivity].
    apply populate_refs. }
  split; [| split; [exact Hrefs | split]].
  - apply (f_equal (@List.length _)) in Hrefs.
    now rewrite length_map, length_seq in Hrefs.
  - rewrite Hrefs. apply seq_NoDup.
  - repeat split. intros Hn.
    assert (Hz : Z.to_nat (NUM_BOIDS s) = 0%nat) by lia.
    unfold s', initSimulation, animate_frame. cbn [sim_boids sim_params sim_orbs].
    now rewrite Hz.
Qed.

Lemma initSimulation_rebuilds_witness :
  sim_boids
    (initSimulation (fun _ => "hsl(0, 70%, 65%)"%string) (fun _ => 1 / 2)
       0 (Build_Canvas 800 600)
       {| NUM_BOIDS := -3; sim_params := default_params;
          sim_canvas := Build_Canvas 800 600; sim_boids := [boid_at 7 1 1 0 0];
          sim_orbs := [orb_at 2 0 attractor];
          wrapAround_backgroundColor := "green" |})
  = [].
Proof.
  apply (@initSimulation_rebuilds R _). cbn. lia.
Defined.

Lemma on_wrap_click_colour {T : Type} (s : Sim T) :
  wrapAround_backgroundColor (on_wrap_click s)
  = if wrap (sim_params (on_wrap_click s)) then "green"%string
    else "red"%string.
Proof. reflexivity. Qed.

Lemma on_wrap_click_mode {T : Type} (s : Sim T) :
  wrap (sim_params (on_wrap_click s)) = negb (wrap (sim_params s)).
Proof. reflexivity. Qed.

(** X23. The wrap button: two clicks restore the boundary mode, after
    any positive number of clicks the button is green exactly in wrap mode
    and red in bounce mode, and clicks touch neither the agents, the orbs,
    the population size nor the other parameters. *)
Theorem wrap_button_tracks_mode {T : Type} (n : nat) (s : Sim T) :
  wrap (sim_params (wrap_clicks (2 + n) s))
  = wrap (sim_params (wrap_clicks n s))
  /\ wrapAround_backgroundColor (wrap_clicks (S n) s)
     = (if wrap (sim_params (wrap_clicks (S n) s)) then "green" else "red")%string
  /\ wrap (sim_params (wrap_clicks n s))
     = (if Nat.even n then wrap (sim_params s) else negb (wrap (sim_params s)))
  /\ sim_boids (wrap_clicks n s) = sim_boids s
  /\ sim_orbs (wrap_clicks n s) = sim_orbs s
  /\ NUM_BOIDS (wrap_clicks n s) = NUM_BOIDS s
  /\ PERCEPTION_RADIUS (sim_params (wrap_clicks n s))
     = PERCEPTION_RADIUS (sim_params s)
  /\ SEPARATION_WEIGHT (sim_params (wrap_clicks n s))
     = SEPARATION_WEIGHT (sim_params s)
  /\ ALIGNMENT_WEIGHT (sim_params (wrap_clicks n s))
     = ALIGNMENT_WEIGHT (sim_params s)
  /\ COHESION_WEIGHT (sim_params (wrap_clicks n s))
     = COHESION_WEIGHT (sim_params s).
Proof.
  split; [| split; [| split]].
  - change (wrap_clicks (2 + n) s)
      with (on_wrap_click (on_wrap_click (wrap_clicks n s))).
    rewrite !on_wrap_click_mode. apply negb_involutive.
  - apply on_wrap_click_colour.
  - induction n as [| n IH]; [reflexivity |].
    change (wrap_clicks (S n) s) with (on_wrap_click (wrap_clicks n s)).
    rewrite on_wrap_click_mode, IH, Nat.even_succ, <- Nat.negb_even.
    destruct (Nat.even n); cbn [negb]; [reflexivity | apply negb_involutive].
  - induction n as [| n IH]; [repeat split |].
    change (wrap_clicks (S n) s) with (on_wrap_click (wrap_clicks n s)).
    exact IH.
Qed.

(** X24. On every carrier, the reset button puts back the documented
    defaults (500 agents, perception radius 50, weights 1.5, 1 and 1),
    rebuilds a population of exactly 500 new agents and removes every
    orb; it does not touch the boundary mode or the colour of the wrap
    button. *)
Theorem reset_restores_defaults {T : Type} {N : Number T}
    (hsl : T -> string) (rand : nat -> T) (ref : nat) (resized : Canvas T)
    (s : Sim T) :
  let s' := on_reset_click hsl rand ref resized s in
  NUM_BOIDS s' = 500%Z
  /\ PERCEPTION_RADIUS (sim_params s') = num_lit 50
  /\ SEPARATION_WEIGHT (sim_params s') = num_div (num_lit 3) (num_lit 2)
  /\ ALIGNMENT_WEIGHT (sim_params s') = num_lit 1
  /\ COHESION_WEIGHT (sim_params s') = num_lit 1
  /\ wrap (sim_params s') = wrap (sim_params s)
  /\ wrapAround_backgroundColor s' = wrapAround_backgroundColor s
  /\ List.length (sim_boids s') = 500%nat
  /\ map (@Boid.oid T) (sim_boids s') = seq ref 500
  /\ sim_orbs s' = []
  /\ sim_canvas s' = resized.
Proof.
  intros s'.
  assert (Hrefs : map (@Boid.oid T) (sim_boids s') = seq ref 500).
  { unfold s', on_reset_click, initSimulation, animate_frame.
    cbn [sim_boids sim_params sim_orbs sim_canvas NUM_BOIDS].
    set (fresh := populate _ _ _ _ _).
    pose proof (animate_loop_badges
                  {| PERCEPTION_RADIUS := num_lit 50;
                     SEPARATION_WEIGHT := num_div (num_lit 3) (num_lit 2);
                     ALIGNMENT_WEIGHT := num_lit 1;
                     COHESION_WEIGHT := num_lit 1;
                     wrap := wrap (sim_params s) |} resized [] fresh [])
      as Hb.
    apply (f_equal (map (fun t : nat * T * string => fst (fst t)))) in Hb.
    cbn [map app] in Hb. rewrite !map_map in Hb. cbn [badge fst] in Hb.
    unfold animate.
    erewrite map_ext; [rewrite Hb |]; [| reflexivity].
    apply populate_refs. }
  assert (Hlen : List.length (sim_boids s') = 500%nat).
  { apply (f_equal (@List.length _)) in Hrefs.
    now rewrite length_map, length_seq in Hrefs. }
  repeat split; try reflexivity; assumption.
Qed.

Section Presses.
Context {T : Type} {N : Number T}.

Lemma on_mousedown_appends (rect : ClientRect T) (e : MouseEvent T)
    (orbs : list (Orb T)) :
  exists added,
    on_mousedown rect e orbs = orbs ++ added
    /\ List.length added = (if places_orb e then 1 else 0)%nat
    /\ Forall (fun o => Orb.radius o = ORB_RADIUS) added.
Proof.
  unfold on_mousedown, places_orb.
  destruct (Z.eqb (button e) 2); [| destruct (Z.eqb (button e) 0)];
    cbn [orb].
  - eexists. split; [reflexivity |]. split; [reflexivity |].
    constructor; [reflexivity | constructor].
  - eexists. split; [reflexivity |]. split; [reflexivity |].
    constructor; [reflexivity | constructor].
  - exists []. split; [now rewrite app_nil_r |]. split; constructor.
Qed.

Lemma canvas_presses_orbs (rect : ClientRect T) (events : list (MouseEvent T))
    (s : Sim T) :
  exists added,
    sim_orbs (canvas_presses rect events s) = sim_orbs s ++ added
    /\ List.length added = List.length (filter places_orb events)
    /\ Forall (fun o => Orb.radius o = ORB_RADIUS) added.
Proof.
  unfold canvas_presses.
  induction events as [| e events IH] in s |- *.
  - exists []. split; [now rewrite app_nil_r |]. split; constructor.
  - cbn [fold_left filter].
    destruct (IH (on_canvas_mousedown rect e s)) as (added & Ho & Hl & Hr).
    destruct (on_mousedown_appends rect e (sim_orbs s)) as (a1 & H1 & L1 & R1).
    cbn [on_canvas_mousedown sim_orbs] in Ho. rewrite H1, <- app_assoc in Ho.
    exists (a1 ++ added). split; [exact Ho |]. split.
    + rewrite length_app, L1, Hl. destruct (places_orb e); reflexivity.
    + apply Forall_app. split; assumption.
Qed.

Lemma canvas_presses_rest (rect : ClientRect T) (events : list (MouseEvent T))
    (s : Sim T) :
  sim_boids (canvas_presses rect events s) = sim_boids s
  /\ sim_params (canvas_presses rect events s) = sim_params s
  /\ NUM_BOIDS (canvas_presses rect events s) = NUM_BOIDS s.
Proof.
  unfold canvas_presses.
  induction events as [| e events IH] in s |- *; [repeat split |].
  cbn [fold_left]. destruct (IH (on_canvas_mousedown rect e s)) as (A & B & C).
  repeat split; assumption.
Qed.
End Presses.

(** X25. On every carrier, mouse presses only ever add orbs: after any
    sequence of presses the orbs that were there are still there, in
    place, followed by one new orb of radius [ORB_RADIUS] for each press
    of button 0 or 2, and the agents and parameters are untouched. *)
Theorem presses_only_add_orbs {T : Type} {N : Number T}
    (rect : ClientRect T) (events : list (MouseEvent T)) (s : Sim T) :
  (exists added,
     sim_orbs (canvas_presses rect events s) = sim_orbs s ++ added
     /\ List.length added = List.length (filter places_orb events)
     /\ Forall (fun o => Orb.radius o = ORB_RADIUS) added)
  /\ sim_boids (canvas_presses rect events s) = sim_boids s
  /\ sim_params (canvas_presses rect events s) = sim_params s
  /\ NUM_BOIDS (canvas_presses rect events s) = NUM_BOIDS s.
Proof.
  split; [apply canvas_presses_orbs | apply canvas_presses_rest].
Qed.
